(** * The sliding-tile puzzle solver of [puzzle_problem.ipynb]

    A shallow embedding of the notebook's five definitions
    ([available_actions], [do_action], [goal_positions], [heuristic],
    [solve_puzzle]) and the properties of them that the specification
    states.

    Conventions of the embedding.
    - A two-dimensional [np.ndarray] of integers is the list of its rows,
      which is also what [ndarray.tolist()] gives. The arrays of the
      notebook have NumPy's default integer dtype, 64-bit signed, and every
      operation that involves an array scalar wraps around accordingly
      ([wrap64]).
    - Python [int]s (loop indices, coordinates, [g_cost]) are unbounded: [Z].
    - A Python exception ([IndexError] from an index out of range, or from
      [np.where(...)[0]] on an array without a zero) is [None] in the
      option monad, and [Raises] as the result of the search.
    - [heapq] is the standard library's priority queue. A heap is kept as
      the collection of its entries, and [heappop] takes the least one
      out; the entries are totally ordered as tuples, so the entry popped
      does not depend on the layout of the heap ([heappop_perm_proper]).
    - The [while] loop of [solve_puzzle] runs for at most [fuel]
      iterations; on a grid of dimension [PUZZLE_DIM] it ends
      ([solve_puzzle_ends]).
    - [PUZZLE_DIM] is a module-level constant of the notebook (set to 5
      there); here it is the section variable [PUZZLE_DIM]. *)

From Stdlib Require Import ZArith Lia.
From stdpp Require Import base option list gmap sets numbers.

Open Scope Z_scope.

(** ** NumPy: 64-bit scalars, indexing, [where], [tobytes], [array_equal] *)

Module Numpy.

(** A two-dimensional integer array, row by row. *)
Abbreviation ndarray := (list (list Z)).

(** Two's-complement wrap-around of a 64-bit signed scalar. *)
Definition wrap64 (z : Z) : Z := (z + 2 ^ 63) `mod` 2 ^ 64 - 2 ^ 63.

Definition int64 (z : Z) : Prop := - 2 ^ 63 ≤ z < 2 ^ 63.

Definition np_add (a b : Z) : Z := wrap64 (a + b).
Definition np_sub (a b : Z) : Z := wrap64 (a - b).
Definition np_abs (a : Z) : Z := wrap64 (Z.abs a).

(** [divmod(a, n)] for a positive Python int [n]: floor division. *)
Definition np_divmod (a : Z) (n : Z) : Z * Z := (a `div` n, a `mod` n).

(** An index into an axis of length [n]: negative indices count from the
    end, anything outside [-n .. n-1] raises [IndexError]. *)
Definition axis_index (n : nat) (i : Z) : option nat :=
  if bool_decide (0 ≤ i < Z.of_nat n) then Some (Z.to_nat i)
  else if bool_decide (- Z.of_nat n ≤ i < 0) then Some (Z.to_nat (i + Z.of_nat n))
  else None.

(** [a[x, y]] *)
Definition getitem (a : ndarray) (p : Z * Z) : option Z :=
  i ← axis_index (length a) p.1;
  row ← a !! i;
  j ← axis_index (length row) p.2;
  row !! j.

(** [a[x, y] = v], in place: the array after the assignment. *)
Definition setitem (a : ndarray) (p : Z * Z) (v : Z) : option ndarray :=
  i ← axis_index (length a) p.1;
  row ← a !! i;
  j ← axis_index (length row) p.2;
  Some (<[i := <[j := v]> row]> a).

(** [[int(_[0]) for _ in np.where(a == 0)]]: the coordinates of the first
    zero in row-major order; [IndexError] when there is none. *)
Definition where_zero_first (a : ndarray) : option (Z * Z) :=
  '(x, row) ← list_find (λ row : list Z, 0 ∈ row) a;
  '(y, _) ← list_find (λ v : Z, v = 0) row;
  Some (Z.of_nat x, Z.of_nat y).

(** The eight bytes of a 64-bit scalar, least significant first. *)
Definition int64_bytes (v : Z) : list Z :=
  (λ k : nat, Z.land (Z.shiftr (v `mod` 2 ^ 64) (8 * Z.of_nat k)) 255) <$> seq 0 8.

(** [a.tobytes()]: the cells in row-major order, eight bytes each; the
    shape is not part of it. *)
Definition tobytes (a : ndarray) : list Z :=
  row ← a; v ← row; int64_bytes v.

(** [np.array_equal(np.array(l), b)] for a nested list [l] and a
    two-dimensional array [b]: same shape and same cells. [np.array([])]
    is one-dimensional, so it equals no two-dimensional array. *)
Definition array_equal_list (l : list (list Z)) (b : ndarray) : bool :=
  match l with
  | [] => false
  | _ :: _ => bool_decide (l = b)
  end.

End Numpy.

Import Numpy.

(** ** Python: tuple and list ordering, [heapq] *)

Module Python.

(** [l1 < l2] on lists (and tuples): the first differing position
    decides, a proper prefix is smaller. *)
Fixpoint list_lt {A} `{EqDecision A} (lt : A → A → bool) (l1 l2 : list A) : bool :=
  match l1, l2 with
  | [], [] => false
  | [], _ :: _ => true
  | _ :: _, [] => false
  | a :: l1', b :: l2' =>
      if decide (a = b) then list_lt lt l1' l2' else lt a b
  end.

(** A [for] loop over a range whose body may raise. *)
Fixpoint for_range {S : Type} (r : list nat) (body : nat → S → option S) (s : S)
  : option S :=
  match r with
  | [] => Some s
  | i :: r' => s' ← body i s; for_range r' body s'
  end.

(** What [heapq] asks of [<] on the items: a strict total order. *)
Class StrictTotal {A : Type} (lt : A → A → bool) : Prop := {
  lt_irrefl a : lt a a = false;
  lt_trans a b c : lt a b = true → lt b c = true → lt a c = true;
  lt_total a b : a ≠ b → lt a b = true ∨ lt b a = true
}.

Section Heapq.
Context {A : Type} `{EqDecision A} (lt : A → A → bool).

(** The least item of a heap for [lt]. *)
Fixpoint heap_min (h : list A) : option A :=
  match h with
  | [] => None
  | a :: h' =>
      match heap_min h' with
      | Some b => if lt b a then Some b else Some a
      | None => Some a
      end
  end.

(** Removes one occurrence of [a]. *)
Fixpoint remove_one (a : A) (h : list A) : list A :=
  match h with
  | [] => []
  | b :: h' => if decide (a = b) then h' else b :: remove_one a h'
  end.

(** [heapq.heappush(h, item)] and [heapq.heappop(h)]. A heap is kept as
    the collection of its items, in no particular order: [heappop]
    takes the least item out, whatever the layout of the array. *)
Definition heappush (h : list A) (item : A) : list A := item :: h.

Definition heappop (h : list A) : option (A * list A) :=
  a ← heap_min h; Some (a, remove_one a h).
End Heapq.

End Python.

Import Python.

(** ** The State/Move model *)

(** [action = namedtuple('Action', ['pos1', 'pos2'])] *)
Record Action := action { pos1 : Z * Z; pos2 : Z * Z }.

Global Instance Action_eq_dec : EqDecision Action.
Proof. solve_decision. Defined.

(** A frontier entry [(f_cost, state, path, g_cost)]; [state] and the
    elements of [path] are nested lists ([tolist()]). *)
Abbreviation node := (Z * list (list Z) * list (list (list Z)) * Z)%type.

Definition row_lt : list Z → list Z → bool := list_lt Z.ltb.
Definition grid_lt : list (list Z) → list (list Z) → bool := list_lt row_lt.
Definition path_lt : list (list (list Z)) → list (list (list Z)) → bool :=
  list_lt grid_lt.

(** [n1 < n2] on the entries, as tuples. *)
Definition node_lt (n1 n2 : node) : bool :=
  let '(f1, s1, p1, g1) := n1 in
  let '(f2, s2, p2, g2) := n2 in
  if decide (f1 = f2) then
    if decide (s1 = s2) then
      if decide (p1 = p2) then g1 <? g2 else path_lt p1 p2
    else grid_lt s1 s2
  else f1 <? f2.

Section Puzzle.

Variable PUZZLE_DIM : nat.

(** [PUZZLE_DIM] where Python uses it in integer arithmetic. *)
Local Abbreviation dim := (Z.of_nat PUZZLE_DIM).

(** [available_actions(state)] *)
Definition available_actions (state : ndarray) : option (list Action) :=
  '(x, y) ← where_zero_first state;
  let actions := [] in
  let actions :=
    if bool_decide (x > 0) then actions ++ [action (x, y) (x - 1, y)] else actions in
  let actions :=
    if bool_decide (x < dim - 1) then actions ++ [action (x, y) (x + 1, y)] else actions in
  let actions :=
    if bool_decide (y > 0) then actions ++ [action (x, y) (x, y - 1)] else actions in
  let actions :=
    if bool_decide (y < dim - 1) then actions ++ [action (x, y) (x, y + 1)] else actions in
  Some actions.

(** [do_action(state, action)]: the array it returns, [new_state], which
    starts as a copy of [state] ([Store.do_action_obj] below has the copy
    as an object of its own). The right-hand side of the tuple assignment
    is read first ([pos2], then [pos1]), then the two cells are written
    ([pos1], then [pos2]). *)
Definition do_action (state : ndarray) (act : Action) : option ndarray :=
  let new_state := state in
  v2 ← getitem new_state (pos2 act);
  v1 ← getitem new_state (pos1 act);
  new_state ← setitem new_state (pos1 act) v2;
  setitem new_state (pos2 act) v1.

(** [goal_positions]: tile value ↦ [divmod(value - 1, PUZZLE_DIM)] for
    [value] in [range(1, PUZZLE_DIM**2)]. *)
Definition goal_positions : gmap Z (Z * Z) :=
  list_to_map
    ((λ value : Z, (value, np_divmod (value - 1) dim))
       <$> seqZ 1 (dim * dim - 1)).

(** The body of the inner loop of [heuristic] at cell [(x, y)], on the
    pair [(manhattan_distance, misplacement_count)]. *)
Definition heuristic_cell (state goal : ndarray) (x y : nat) (acc : Z * Z)
  : option (Z * Z) :=
  let '(manhattan_distance, misplacement_count) := acc in
  value ← getitem state (Z.of_nat x, Z.of_nat y);
  if bool_decide (value ≠ 0) then
    let '(goal_x, goal_y) := np_divmod (np_sub value 1) dim in
    let manhattan_distance :=
      np_add manhattan_distance
        (np_add (np_abs (np_sub (Z.of_nat x) goal_x))
           (np_abs (np_sub (Z.of_nat y) goal_y))) in
    g ← getitem goal (Z.of_nat x, Z.of_nat y);
    if bool_decide (g ≠ value)
    then Some (manhattan_distance, misplacement_count + 1)
    else Some (manhattan_distance, misplacement_count)
  else Some acc.

(** [heuristic(state, goal)]. When no tile is seen both counters are
    still the Python int 0 and the sum is 0, which [np_add] gives too. *)
Definition heuristic (state goal : ndarray) : option Z :=
  '(manhattan_distance, misplacement_count) ←
    for_range (seq 0 PUZZLE_DIM)
      (λ x, for_range (seq 0 PUZZLE_DIM) (λ y, heuristic_cell state goal x y))
      (0, 0);
  Some (np_add manhattan_distance (2 * misplacement_count)).

(** ** The search engine *)

Record search_state := SearchState {
  frontier : list node;
  visited : gset (list Z)
}.

(** What a call gives back: a returned value (a path or [None]) or an
    exception. *)
Inductive py_result :=
| Returns (r : option (list (list (list Z))))
| Raises.

Inductive step_result :=
| Stop (r : py_result)
| Continue (st : search_state).

(** The [for act in available_actions(current_state)] loop. *)
Fixpoint push_children (goal_state : ndarray) (current_state : ndarray)
    (path : list (list (list Z))) (g_cost : Z)
    (acts : list Action) (frontier : list node) : option (list node) :=
  match acts with
  | [] => Some frontier
  | act :: acts' =>
      new_state ← do_action current_state act;
      let new_g_cost := g_cost + 1 in
      h ← heuristic new_state goal_state;
      let new_f_cost := np_add new_g_cost h in
      let new_path := path ++ [new_state] in
      push_children goal_state current_state path g_cost acts'
        (heappush frontier (new_f_cost, new_state, new_path, new_g_cost))
  end.

(** One test of [while frontier:] followed by one run of the loop body. *)
Definition search_step (goal_state : ndarray) (st : search_state) : step_result :=
  match heappop node_lt (frontier st) with
  | None => Stop (Returns None)
  | Some ((f_cost, current_state, path, g_cost), rest) =>
      if array_equal_list current_state goal_state then Stop (Returns (Some path))
      else
        let state_str := tobytes current_state in
        if bool_decide (state_str ∈ visited st) then
          Continue (SearchState rest (visited st))
        else
          let visited' := {[state_str]} ∪ visited st in
          match available_actions current_state with
          | None => Stop Raises
          | Some acts =>
              match push_children goal_state current_state path g_cost acts rest with
              | None => Stop Raises
              | Some frontier' => Continue (SearchState frontier' visited')
              end
          end
  end.

(** The [while] loop, for at most [fuel] iterations; [None] when the
    loop is still running after them. *)
Fixpoint search_loop (goal_state : ndarray) (fuel : nat) (st : search_state)
  : option py_result :=
  match fuel with
  | O => None
  | S fuel' =>
      match search_step goal_state st with
      | Stop r => Some r
      | Continue st' => search_loop goal_state fuel' st'
      end
  end.

(** The state before the first iteration. *)
Definition initial_state (start_state : ndarray) : search_state :=
  SearchState (heappush [] (0, start_state, [start_state], 0)) ∅.

(** [solve_puzzle(start_state, goal_state)] *)
Definition solve_puzzle (fuel : nat) (start_state goal_state : ndarray)
  : option py_result :=
  search_loop goal_state fuel (initial_state start_state).

End Puzzle.

(** ** Arrays as objects: [ndarray.copy()] and assignment in place *)

Module Store.

(** The arrays that exist, by identity. *)
Abbreviation store := (gmap nat ndarray).

(** [a.copy()]: a new array with the cells of [a]. *)
Definition ndarray_copy (σ : store) (a : nat)
  : option (nat * store) :=
  cells ← σ !! a;
  let a' := fresh (dom σ) in
  Some (a', <[a' := cells]> σ).

Definition obj_getitem (σ : store) (a : nat) (p : Z * Z) : option Z :=
  cells ← σ !! a; getitem cells p.

Definition obj_setitem (σ : store) (a : nat) (p : Z * Z) (v : Z)
  : option (store) :=
  cells ← σ !! a;
  cells' ← setitem cells p v;
  Some (<[a := cells']> σ).

(** [do_action(state, action)] on array objects: the copy is made, then
    changed in place, then returned. *)
Definition do_action_obj (σ : store) (state : nat) (act : Action)
  : option (nat * store) :=
  '(new_state, σ) ← ndarray_copy σ state;
  v2 ← obj_getitem σ new_state (pos2 act);
  v1 ← obj_getitem σ new_state (pos1 act);
  σ ← obj_setitem σ new_state (pos1 act) v2;
  σ ← obj_setitem σ new_state (pos2 act) v1;
  Some (new_state, σ).

End Store.

(** ** The driver cell *)

Definition RANDOMIZE_STEPS : nat := 150.

(** The rows of [np.array(l).reshape((r, c))], read off [l] one after the
    other. *)
Fixpoint chunks (c r : nat) (l : list Z) : list (list Z) :=
  match r with
  | O => []
  | S r' => take c l :: chunks c r' (drop c l)
  end.

(** [np.array(l).reshape((r, c))]; [ValueError] when [l] does not have
    [r * c] elements. *)
Definition reshape (r c : nat) (l : list Z) : option ndarray :=
  if decide (length l = (r * c)%nat) then Some (chunks c r l) else None.

(** [np.array([i for i in range(1, PUZZLE_DIM**2)] + [0]).reshape((PUZZLE_DIM, PUZZLE_DIM))],
    the array from which the cell starts and the goal of the search. *)
Definition goal_array (n : nat) : option ndarray :=
  reshape n n (seqZ 1 (Z.of_nat n * Z.of_nat n - 1) ++ [0]).

(** [random.choice(seq)]: [IndexError] on an empty sequence, else the
    element at a random index below [len(seq)]. The random source is
    given from outside as a number [r]; the index drawn is its remainder,
    so that every index below [len(seq)] can be drawn. *)
Definition choice {A} (r : nat) (seq : list A) : option A :=
  if decide (length seq = 0%nat) then None
  else seq !! (r `mod` length seq)%nat.

(** The [for _ in tqdm(range(RANDOMIZE_STEPS))] loop, one number of the
    random source for each iteration. *)
Fixpoint randomize (n : nat) (draws : list nat) (state : ndarray) : option ndarray :=
  match draws with
  | [] => Some state
  | r :: draws' =>
      acts ← available_actions n state;
      act ← choice r acts;
      state ← do_action state act;
      randomize n draws' state
  end.

(** What the cell prints, line by line: the two messages, the step
    headers and the grids. *)
Inductive printed :=
| SolutionFound (moves : Z)
| StepHeader (step : nat)
| PrintGrid (s : list (list Z))
| NoSolutionFound.

Inductive cell_result :=
| Prints (out : list printed)
| CellRaises.

(** The lines of the [if solution:] branch. *)
Definition print_solution (solution : list (list (list Z))) : list printed :=
  SolutionFound (Z.of_nat (length solution) - 1)
  :: mjoin (imap (λ step s, [StepHeader step; PrintGrid s]) solution).

(** The last cell of the notebook; [rnd k] is the number of the random
    source for iteration [k] of the randomizing loop. [None] when the
    search is still running after [fuel] iterations. *)
Definition main (n fuel : nat) (rnd : nat → nat) : option cell_result :=
  if decide (n = 0%nat) then
    Some (Prints [SolutionFound 0; StepHeader 0; PrintGrid []])
  else if decide (n = 1%nat) then
    match goal_array n with
    | None => Some CellRaises
    | Some state => Some (Prints [SolutionFound 0; StepHeader 0; PrintGrid state])
    end
  else
    match goal_array n with
    | None => Some CellRaises
    | Some state =>
        match randomize n (rnd <$> seq 0 RANDOMIZE_STEPS) state with
        | None => Some CellRaises
        | Some state =>
            match goal_array n with
            | None => Some CellRaises
            | Some goal_state =>
                match solve_puzzle n fuel state goal_state with
                | None => None
                | Some Raises => Some CellRaises
                | Some (Returns (Some (s :: solution))) =>
                    Some (Prints (print_solution (s :: solution)))
                | Some (Returns _) => Some (Prints [NoSolutionFound])
                end
            end
        end
    end.

Import Store.

(** ** The vocabulary of the specification *)

(** The cell at row [x], column [y], and the grid with that cell replaced. *)
Definition cell (a : ndarray) (x y : nat) : option Z := row ← a !! x; row !! y.

Definition set_cell (a : ndarray) (x y : nat) (v : Z) : ndarray :=
  alter (<[y := v]>) x a.

(** An [n]×[n] grid. *)
Definition shape (n : nat) (a : ndarray) : Prop :=
  length a = n ∧ Forall (λ row, length row = n) a.

(** A Configuration of dimension [n]: exactly one zero, and the non-zero
    values form a permutation of 1..n²-1. *)
Definition is_configuration (n : nat) (a : ndarray) : Prop :=
  shape n a
  ∧ length (filter (λ v, v = 0) (mjoin a)) = 1%nat
  ∧ filter (λ v, v ≠ 0) (mjoin a) ≡ₚ seqZ 1 (Z.of_nat n * Z.of_nat n - 1).

Global Instance shape_dec n a : Decision (shape n a).
Proof. unfold shape; apply _. Defined.

Global Instance is_configuration_dec n a : Decision (is_configuration n a).
Proof. unfold is_configuration; apply _. Defined.

(** Every cell holds a value of [0 .. n²-1]. *)
Definition cells_in_range (n : nat) (a : ndarray) : Prop :=
  Forall (Forall (λ v, 0 ≤ v < Z.of_nat n * Z.of_nat n)) a.

(** Where the blank is, for the count of moves. *)
Definition on_border (n : nat) (i : nat) : Prop := i = 0%nat ∨ i = (n - 1)%nat.
Definition blank_in_corner (n x y : nat) : Prop := on_border n x ∧ on_border n y.
Definition blank_on_edge (n x y : nat) : Prop :=
  (on_border n x ∧ ¬ on_border n y) ∨ (¬ on_border n x ∧ on_border n y).
Definition blank_interior (n x y : nat) : Prop := ¬ on_border n x ∧ ¬ on_border n y.

(** [b] is obtained from [a] by one of the available moves of [a]. *)
Definition one_move (n : nat) (a b : ndarray) : Prop :=
  ∃ acts m, available_actions n a = Some acts ∧ m ∈ acts ∧ do_action a m = Some b.

(** Every configuration of a path after the first comes from the one
    before it by one move. *)
Definition legal_path (n : nat) (p : list ndarray) : Prop :=
  ∀ i a b, p !! i = Some a → p !! S i = Some b → one_move n a b.

(** The cells of a grid with their coordinates, in row-major order. *)
Definition cells (a : ndarray) : list (nat * nat * Z) :=
  mjoin (imap (λ x row, imap (λ y v, (x, y, v)) row) a).

Definition sumZ (l : list Z) : Z := foldr Z.add 0 l.

(** The heuristic in the words of the specification: the Manhattan
    distance of every non-blank cell to the goal position of its value,
    plus twice the number of non-blank cells that differ from the goal
    configuration at the same coordinate. *)
Definition tile_distance (n : nat) (c : nat * nat * Z) : Z :=
  let '(x, y, v) := c in
  Z.abs (Z.of_nat x - (v - 1) `div` Z.of_nat n)
  + Z.abs (Z.of_nat y - (v - 1) `mod` Z.of_nat n).

Definition non_blank (c : nat * nat * Z) : Prop := c.2 ≠ 0.

Definition misplaced (goal : ndarray) (c : nat * nat * Z) : Prop :=
  c.2 ≠ 0 ∧ cell goal c.1.1 c.1.2 ≠ Some c.2.

Global Instance non_blank_dec c : Decision (non_blank c).
Proof. unfold non_blank; apply _. Defined.

Global Instance misplaced_dec goal c : Decision (misplaced goal c).
Proof. unfold misplaced; apply _. Defined.

Definition manhattan_term (n : nat) (a : ndarray) : Z :=
  sumZ (tile_distance n <$> filter non_blank (cells a)).

Definition misplacement_term (a goal : ndarray) : Z :=
  Z.of_nat (length (filter (misplaced goal) (cells a))).

Definition heuristic_formula (n : nat) (a goal : ndarray) : Z :=
  manhattan_term n a + 2 * misplacement_term a goal.

(** The contribution of one cell to the two counters. *)
Definition cell_distance (n : nat) (c : nat * nat * Z) : Z :=
  if decide (non_blank c) then tile_distance n c else 0.

Definition cell_misplaced (goal : ndarray) (c : nat * nat * Z) : Z :=
  if decide (misplaced goal c) then 1 else 0.

(** The cells of a row from column [k] on, and of the rows from row [k] on. *)
Definition row_cells (x k : nat) (suf : list Z) : list (nat * nat * Z) :=
  imap (λ j v, (x, (k + j)%nat, v)) suf.

Definition rows_cells (k : nat) (rows : list (list Z)) : list (nat * nat * Z) :=
  mjoin (imap (λ i row, row_cells (k + i) 0 row) rows).

(** The fingerprints of all the grids that hold the cells of [start] in
    some order: the visited set never leaves them. *)
Definition fingerprints (start : ndarray) : gset (list Z) :=
  list_to_set ((λ l : list Z, l ≫= int64_bytes) <$> permutations (mjoin start)).

(** The configuration of an entry is a grid of dimension [n] with the
    cells of [start]. *)
Definition entry_reachable (n : nat) (start : ndarray) (nd : node) : Prop :=
  shape n nd.1.1.2 ∧ mjoin nd.1.1.2 ≡ₚ mjoin start.

(** What decreases with every iteration. *)
Definition potential (start : ndarray) (st : search_state) : nat :=
  (length (frontier st) + 5 * size (fingerprints start ∖ visited st))%nat.

(** The paths held in the frontier: each starts at the start
    configuration, ends at the configuration of its entry and is made of
    moves. *)
Definition node_ok (n : nat) (start : ndarray) (nd : node) : Prop :=
  head nd.1.2 = Some start ∧ list.last nd.1.2 = Some nd.1.1.2 ∧ legal_path n nd.1.2.

Definition frontier_ok (n : nat) (start : ndarray) (fr : list node) : Prop :=
  Forall (node_ok n start) fr.

(** Python's truth value of what [solve_puzzle] returns ([if solution:]). *)
Definition truthy (r : option (list (list (list Z)))) : bool :=
  match r with
  | None | Some [] => false
  | Some (_ :: _) => true
  end.

(** Two states of the search with the same entries in the frontier, in
    whatever layout, and the same visited set. *)
Definition same_entries (st st' : search_state) : Prop :=
  frontier st ≡ₚ frontier st' ∧ visited st = visited st'.

(** One iteration of the loop that does not leave it. *)
Definition iterates (n : nat) (goal_state : ndarray) (st st' : search_state) : Prop :=
  search_step n goal_state st = Continue st'.

(** Where an index pair lands in an array: the row and column that
    [a[x, y]] addresses, if any. *)
Definition locate (a : ndarray) (p : Z * Z) : option (nat * nat) :=
  i ← axis_index (length a) p.1;
  row ← a !! i;
  j ← axis_index (length row) p.2;
  Some (i, j).

(** A grid of [r] rows and [c] columns. *)
Definition rect (r c : nat) (a : ndarray) : Prop :=
  length a = r ∧ Forall (λ row, length row = c) a.

(** An index that NumPy accepts on an axis of length [n]. *)
Definition index_ok (n : nat) (i : Z) : Prop := - Z.of_nat n ≤ i < Z.of_nat n.

Global Instance rect_dec r c a : Decision (rect r c a).
Proof. unfold rect; apply _. Defined.

Global Instance index_ok_dec n i : Decision (index_ok n i).
Proof. unfold index_ok; apply _. Defined.

Global Instance int64_dec z : Decision (int64 z).
Proof. unfold int64; apply _. Defined.

(** The value of the goal array at row [x], column [y]. *)
Definition goal_value (n x y : nat) : Z :=
  if decide (x * n + y = n * n - 1)%nat then 0 else Z.of_nat (x * n + y) + 1.

(** The number that a sequence of bytes holds, least significant first. *)
Definition bytes_value (bs : list Z) : Z := foldr (λ b acc, b + 256 * acc) 0 bs.

(** The path of a frontier entry, up to its configuration, runs without
    repetition through configurations that were expanded and are not the
    goal. *)
Definition entry_simple (goal : ndarray) (V : gset (list Z)) (nd : node) : Prop :=
  ∃ pre, nd.1.2 = pre ++ [nd.1.1.2] ∧ NoDup pre
         ∧ ∀ s, s ∈ pre → tobytes s ∈ V ∧ s ≠ goal.

(** The goal can be reached from the configuration [a] by moves. *)
Definition reachable (n : nat) (a goal : ndarray) : Prop :=
  ∃ p, head p = Some a ∧ list.last p = Some goal ∧ legal_path n p.

(** From some entry of the frontier the goal can still be reached through
    configurations that were not expanded. *)
Definition goal_ahead (n : nat) (goal : ndarray) (st : search_state) : Prop :=
  ∃ (nd : node) p,
    nd ∈ frontier st ∧ head p = Some nd.1.1.2 ∧ list.last p = Some goal
    ∧ legal_path n p ∧ ∀ s, s ∈ p → tobytes s ∉ visited st.

(** * Proofs *)

(** Decides a closed decidable proposition by evaluation. *)
Ltac by_compute := apply (bool_decide_unpack _); vm_compute; exact I.

(** ** Indexing *)

Lemma axis_index_nat (n i : nat) :
  (i < n)%nat → axis_index n (Z.of_nat i) = Some i.
Proof.
  intros Hi. unfold axis_index.
  rewrite bool_decide_eq_true_2 by lia. by rewrite Nat2Z.id.
Qed.

Lemma axis_index_ge (n i : nat) :
  (n ≤ i)%nat → axis_index n (Z.of_nat i) = None.
Proof.
  intros Hi. unfold axis_index.
  rewrite !bool_decide_eq_false_2 by lia. done.
Qed.

Lemma getitem_nat (a : ndarray) (x y : nat) :
  getitem a (Z.of_nat x, Z.of_nat y) = cell a x y.
Proof.
  unfold getitem, cell. simpl.
  destruct (a !! x) as [row|] eqn:Hrow.
  - rewrite axis_index_nat by (by eapply lookup_lt_Some). simpl. rewrite Hrow. simpl.
    destruct (row !! y) as [v|] eqn:Hv.
    + rewrite axis_index_nat by (by eapply lookup_lt_Some). done.
    + rewrite axis_index_ge; [done|]. by apply lookup_ge_None.
  - rewrite axis_index_ge; [done|]. by apply lookup_ge_None.
Qed.

Lemma setitem_nat (a : ndarray) (x y : nat) (v : Z) :
  is_Some (cell a x y) →
  setitem a (Z.of_nat x, Z.of_nat y) v = Some (set_cell a x y v).
Proof.
  unfold cell, setitem. simpl. intros [w Hw].
  destruct (a !! x) as [row|] eqn:Hrow; [|done]. simpl in Hw.
  rewrite axis_index_nat by (by eapply lookup_lt_Some). simpl. rewrite Hrow. simpl.
  rewrite axis_index_nat by (by eapply lookup_lt_Some). simpl.
  f_equal. symmetry. unfold set_cell. apply list_eq. intros i.
  destruct (decide (i = x)) as [->|Hne].
  - rewrite list_lookup_alter_eq, Hrow. simpl.
    by rewrite list_lookup_insert_eq by (by eapply lookup_lt_Some).
  - by rewrite list_lookup_alter_ne, list_lookup_insert_ne.
Qed.

Lemma length_set_cell (a : ndarray) x y v : length (set_cell a x y v) = length a.
Proof. apply length_alter. Qed.

Lemma cell_set_cell (a : ndarray) x y v x' y' :
  cell (set_cell a x y v) x' y' =
  if decide (x = x' ∧ y = y') then cell a x y ≫= (λ _, Some v) else cell a x' y'.
Proof.
  unfold cell, set_cell.
  destruct (decide (x = x')) as [->|Hx].
  - rewrite list_lookup_alter_eq.
    destruct (a !! x') as [row|] eqn:Hrow; simpl; [|by case_decide].
    destruct (decide (y = y')) as [->|Hy].
    + rewrite decide_True by done.
      destruct (row !! y') as [w|] eqn:Hw.
      * by rewrite list_lookup_insert_eq by (by eapply lookup_lt_Some).
      * rewrite list_insert_ge by (by apply lookup_ge_None). by rewrite Hw.
    + rewrite decide_False by (by intros [??]). by rewrite list_lookup_insert_ne.
  - rewrite decide_False by (by intros [??]). by rewrite list_lookup_alter_ne.
Qed.

Lemma shape_set_cell n (a : ndarray) x y v : shape n a → shape n (set_cell a x y v).
Proof.
  intros [Hl Hr]. split; [by rewrite length_set_cell|].
  unfold set_cell. apply Forall_lookup. intros i row Hi.
  destruct (decide (i = x)) as [->|Hne].
  - rewrite list_lookup_alter_eq in Hi.
    destruct (a !! x) as [r|] eqn:Hrow; simplify_eq/=.
    rewrite length_insert. by eapply (Forall_lookup_1 _ _ _ _ Hr).
  - rewrite list_lookup_alter_ne in Hi by done. by eapply (Forall_lookup_1 _ _ _ _ Hr).
Qed.

(** Two grids with as many rows and the same cells are the same grid,
    provided no row of one is empty where the other has cells; with equal
    row counts the rows are compared cell by cell. *)
Lemma grid_ext (a b : ndarray) :
  length a = length b →
  (∀ x, length <$> a !! x = length <$> b !! x) →
  (∀ x y, cell a x y = cell b x y) → a = b.
Proof.
  intros Hlen Hrows Hcell. apply list_eq. intros x.
  specialize (Hrows x).
  destruct (a !! x) as [r|] eqn:Ha, (b !! x) as [r'|] eqn:Hb; simplify_eq/=; [|done].
  f_equal. apply list_eq. intros y.
  specialize (Hcell x y). unfold cell in Hcell. by rewrite Ha, Hb in Hcell.
Qed.

Lemma set_cell_row_lengths (a : ndarray) x y v i :
  length <$> set_cell a x y v !! i = length <$> a !! i.
Proof.
  unfold set_cell. destruct (decide (i = x)) as [->|Hne].
  - rewrite list_lookup_alter_eq. destruct (a !! x); simpl; [|done].
    by rewrite length_insert.
  - by rewrite list_lookup_alter_ne.
Qed.

Lemma shape_cell n (a : ndarray) x y :
  shape n a → (x < n)%nat → (y < n)%nat → is_Some (cell a x y).
Proof.
  intros [Hl Hr] Hx Hy. unfold cell.
  destruct (lookup_lt_is_Some_2 a x) as [row Hrow]; [lia|].
  rewrite Hrow. simpl. apply lookup_lt_is_Some_2.
  by rewrite (Forall_lookup_1 _ _ _ _ Hr Hrow).
Qed.

Lemma cell_shape_lt n (a : ndarray) x y v :
  shape n a → cell a x y = Some v → (x < n)%nat ∧ (y < n)%nat.
Proof.
  intros [Hl Hr]. unfold cell. intros Hc.
  destruct (a !! x) as [row|] eqn:Hrow; simplify_eq/=.
  split; [by eapply lookup_lt_Some|].
  rewrite <- (Forall_lookup_1 _ _ _ _ Hr Hrow). by eapply lookup_lt_Some.
Qed.

(** ** Locating the blank *)

Lemma where_zero_first_Some (a : ndarray) (p : Z * Z) :
  where_zero_first a = Some p →
  ∃ x y : nat, p = (Z.of_nat x, Z.of_nat y) ∧ cell a x y = Some 0.
Proof.
  unfold where_zero_first. intros H.
  destruct (list_find _ a) as [[x row]|] eqn:Hx; simplify_eq/=.
  destruct (list_find _ row) as [[y v]|] eqn:Hy; simplify_eq/=.
  apply list_find_Some in Hx as (Hrow & _ & _).
  apply list_find_Some in Hy as (Hv & -> & _).
  exists x, y. split; [done|]. unfold cell. by rewrite Hrow.
Qed.

Lemma where_zero_first_is_Some (a : ndarray) x y :
  cell a x y = Some 0 → is_Some (where_zero_first a).
Proof.
  unfold cell, where_zero_first. intros H.
  destruct (a !! x) as [row|] eqn:Hrow; simplify_eq/=.
  assert (Hin : 0 ∈ row) by (by eapply list_elem_of_lookup_2).
  destruct (list_find_elem_of (λ row : list Z, 0 ∈ row) a row) as [[x' row'] Hf];
    [by eapply list_elem_of_lookup_2 | done |].
  rewrite Hf. simpl.
  apply list_find_Some in Hf as (_ & Hin' & _).
  destruct (list_find_elem_of (λ v : Z, v = 0) row' 0) as [[y' v'] Hf']; [done..|].
  rewrite Hf'. simpl. eauto.
Qed.

(** A value that occurs at two positions of a list is counted twice. *)
Lemma filter_two {A} (P : A → Prop) `{∀ x, Decision (P x)} (l : list A) i j v w :
  (i < j)%nat → l !! i = Some v → l !! j = Some w → P v → P w →
  (2 ≤ length (filter P l))%nat.
Proof.
  intros Hij Hi Hj Hv Hw.
  rewrite <- (take_drop_middle l i v Hi).
  rewrite list.filter_app, filter_cons_True by done.
  rewrite length_app. simpl.
  assert (Hin : w ∈ filter P (drop (S i) l)).
  { apply list_elem_of_filter. split; [done|].
    apply list_elem_of_lookup. exists (j - S i)%nat.
    rewrite lookup_drop. rewrite <- Hj. f_equal. lia. }
  destruct (filter P (drop (S i) l)); [by apply elem_of_nil in Hin|]. simpl. lia.
Qed.

Lemma cell_mjoin n (a : ndarray) x y v :
  shape n a → cell a x y = Some v → mjoin a !! (x * n + y)%nat = Some v.
Proof.
  intros Hs Hc. destruct (cell_shape_lt _ _ _ _ _ Hs Hc) as [Hx Hy].
  destruct Hs as [_ Hr].
  apply (join_lookup_Some_same_length' n a x y v Hr Hy).
  unfold cell in Hc. destruct (a !! x) as [row|]; simplify_eq/=. eauto.
Qed.

(** With exactly one zero, the blank is where it is found. *)
Lemma blank_unique n (a : ndarray) x y x' y' :
  shape n a → length (filter (λ v, v = 0) (mjoin a)) = 1%nat →
  cell a x y = Some 0 → cell a x' y' = Some 0 → x = x' ∧ y = y'.
Proof.
  intros Hs Hone Hc Hc'.
  destruct (cell_shape_lt _ _ _ _ _ Hs Hc) as [Hx Hy].
  destruct (cell_shape_lt _ _ _ _ _ Hs Hc') as [Hx' Hy'].
  pose proof (cell_mjoin _ _ _ _ _ Hs Hc) as Hi.
  pose proof (cell_mjoin _ _ _ _ _ Hs Hc') as Hj.
  destruct (decide (x * n + y = x' * n + y')%nat) as [Heq|Hne].
  - assert (x = x') as ->.
    { destruct (Nat.lt_trichotomy x x') as [Hlt|[?|Hlt]]; [|done|].
      - pose proof (Nat.mul_le_mono_r (S x) x' n ltac:(lia)) as Hm. simpl in Hm. lia.
      - pose proof (Nat.mul_le_mono_r (S x') x n ltac:(lia)) as Hm. simpl in Hm. lia. }
    split; [done|lia].
  - exfalso.
    destruct (decide (x * n + y < x' * n + y')%nat).
    + pose proof (filter_two (λ v, v = 0) _ (x * n + y)%nat (x' * n + y')%nat _ _
                    ltac:(done) Hi Hj eq_refl eq_refl). lia.
    + pose proof (filter_two (λ v, v = 0) _ (x' * n + y')%nat (x * n + y)%nat _ _
                    ltac:(lia) Hj Hi eq_refl eq_refl). lia.
Qed.

Lemma where_zero_first_configuration n (a : ndarray) x y :
  is_configuration n a → cell a x y = Some 0 →
  where_zero_first a = Some (Z.of_nat x, Z.of_nat y).
Proof.
  intros (Hs & Hone & _) Hc.
  destruct (where_zero_first_is_Some _ _ _ Hc) as [p Hp].
  destruct (where_zero_first_Some _ _ Hp) as (x' & y' & -> & Hc').
  destruct (blank_unique _ _ _ _ _ _ Hs Hone Hc Hc') as [-> ->]. done.
Qed.

(** ** The moves *)

(** The four tests of [available_actions], on the coordinates found. *)
Lemma available_actions_unfold n (a : ndarray) (x y : nat) :
  where_zero_first a = Some (Z.of_nat x, Z.of_nat y) →
  available_actions n a = Some (
    (if bool_decide (0 < x)%nat
     then [action (Z.of_nat x, Z.of_nat y) (Z.of_nat (x - 1), Z.of_nat y)] else [])
    ++ (if bool_decide (S x < n)%nat
        then [action (Z.of_nat x, Z.of_nat y) (Z.of_nat (x + 1), Z.of_nat y)] else [])
    ++ (if bool_decide (0 < y)%nat
        then [action (Z.of_nat x, Z.of_nat y) (Z.of_nat x, Z.of_nat (y - 1))] else [])
    ++ (if bool_decide (S y < n)%nat
        then [action (Z.of_nat x, Z.of_nat y) (Z.of_nat x, Z.of_nat (y + 1))] else [])).
Proof.
  intros Hw. unfold available_actions. rewrite Hw. simpl. f_equal.
  repeat match goal with
  | |- context [bool_decide ?P] => destruct (bool_decide_reflect P)
  end; try lia; simpl;
  repeat match goal with
  | |- context [Z.of_nat (?i - 1)] => replace (Z.of_nat (i - 1)) with (Z.of_nat i - 1) by lia
  | |- context [Z.of_nat (?i + 1)] => replace (Z.of_nat (i + 1)) with (Z.of_nat i + 1) by lia
  end; reflexivity.
Qed.

(** Every available move swaps the blank with a neighbour inside the
    [n]×[n] board. *)
Lemma available_actions_elem n (a : ndarray) acts m :
  shape n a → available_actions n a = Some acts → m ∈ acts →
  ∃ x y x' y' : nat,
    m = action (Z.of_nat x, Z.of_nat y) (Z.of_nat x', Z.of_nat y')
    ∧ cell a x y = Some 0
    ∧ (x' < n)%nat ∧ (y' < n)%nat
    ∧ ((y' = y ∧ (S x' = x ∨ x' = S x)) ∨ (x' = x ∧ (S y' = y ∨ y' = S y))).
Proof.
  intros Hs Ha Hm.
  destruct (where_zero_first a) as [p|] eqn:Hw;
    [|by unfold available_actions in Ha; rewrite Hw in Ha].
  destruct (where_zero_first_Some _ _ Hw) as (x & y & -> & Hc).
  destruct (cell_shape_lt _ _ _ _ _ Hs Hc) as [Hx Hy].
  rewrite (available_actions_unfold n _ _ _ Hw) in Ha. simplify_eq.
  exists x, y.
  repeat match goal with
  | H : _ ∈ _ ++ _ |- _ => apply elem_of_app in H as [H|H]
  | H : _ ∈ (if bool_decide ?P then _ else _) |- _ =>
      destruct (bool_decide_reflect P); [apply list_elem_of_singleton in H; subst m
                                        | by apply elem_of_nil in H]
  end.
  - exists (x - 1)%nat, y. repeat split; auto; lia.
  - exists (x + 1)%nat, y. repeat split; auto; lia.
  - exists x, (y - 1)%nat. repeat split; auto; lia.
  - exists x, (y + 1)%nat. repeat split; auto; lia.
Qed.

(** ** Applying a move *)

(** The grid after the two assignments of [do_action]. *)
Lemma do_action_nat (a : ndarray) x1 y1 x2 y2 v1 v2 :
  cell a x1 y1 = Some v1 → cell a x2 y2 = Some v2 →
  do_action a (action (Z.of_nat x1, Z.of_nat y1) (Z.of_nat x2, Z.of_nat y2))
  = Some (set_cell (set_cell a x1 y1 v2) x2 y2 v1).
Proof.
  intros H1 H2. unfold do_action. simpl.
  rewrite !getitem_nat, H1, H2. simpl.
  rewrite setitem_nat by (by rewrite H1). simpl.
  apply setitem_nat. rewrite cell_set_cell, H1, H2. simpl. by case_decide.
Qed.

Lemma cell_swapped (a : ndarray) x1 y1 x2 y2 v1 v2 x y :
  cell a x1 y1 = Some v1 → cell a x2 y2 = Some v2 →
  cell (set_cell (set_cell a x1 y1 v2) x2 y2 v1) x y =
  if decide (x2 = x ∧ y2 = y) then Some v1
  else if decide (x1 = x ∧ y1 = y) then Some v2
  else cell a x y.
Proof.
  intros H1 H2. rewrite !cell_set_cell, H1. simpl.
  repeat case_decide; try done; destruct_and?; simplify_eq; by rewrite ?H2.
Qed.

Lemma do_action_twice_nat (a : ndarray) x1 y1 x2 y2 v1 v2 :
  cell a x1 y1 = Some v1 → cell a x2 y2 = Some v2 →
  do_action (set_cell (set_cell a x1 y1 v2) x2 y2 v1)
    (action (Z.of_nat x1, Z.of_nat y1) (Z.of_nat x2, Z.of_nat y2)) = Some a.
Proof.
  intros H1 H2.
  set (a' := set_cell (set_cell a x1 y1 v2) x2 y2 v1).
  assert (Hc : ∀ x y, cell a' x y = _) by (intros; by apply cell_swapped).
  pose proof (Hc x1 y1) as H1'. pose proof (Hc x2 y2) as H2'.
  rewrite decide_True in H2' by done.
  assert (∃ w, cell a' x1 y1 = Some w ∧ (x1 = x2 ∧ y1 = y2 → w = v1)
               ∧ (¬ (x2 = x1 ∧ y2 = y1) → w = v2)) as (w & H1'' & Hsame & Hdiff).
  { rewrite H1'. destruct (decide (x2 = x1 ∧ y2 = y1)) as [[-> ->]|Hn].
    - exists v1. split; [done|]. split; [done|]. intros []; done.
    - rewrite decide_True by done. exists v2. split; [done|]. split; [|done].
      intros [-> ->]. by destruct Hn. }
  rewrite (do_action_nat a' _ _ _ _ _ _ H1'' H2'). f_equal.
  apply grid_ext.
  - unfold a'. by rewrite !length_set_cell.
  - intros x. unfold a'. by rewrite !set_cell_row_lengths.
  - intros x y. rewrite (cell_swapped a' _ _ _ _ _ _ x y H1'' H2'), Hc.
    clear H1' H2' H1'' Hc.
    destruct (decide (x2 = x ∧ y2 = y)) as [[<- <-]|Hn2].
    + rewrite H2. f_equal. destruct (decide (x2 = x1 ∧ y2 = y1)) as [[-> ->]|Hn].
      * rewrite Hsame by done. congruence.
      * by apply Hdiff.
    + destruct (decide (x1 = x ∧ y1 = y)) as [[<- <-]|Hn1]; [by rewrite H1|done].
Qed.

(** An available move applies, and swaps the blank with its target. *)
Lemma do_action_available n (a : ndarray) acts m :
  shape n a → available_actions n a = Some acts → m ∈ acts →
  ∃ x1 y1 x2 y2 v2,
    m = action (Z.of_nat x1, Z.of_nat y1) (Z.of_nat x2, Z.of_nat y2)
    ∧ cell a x1 y1 = Some 0 ∧ cell a x2 y2 = Some v2
    ∧ do_action a m = Some (set_cell (set_cell a x1 y1 v2) x2 y2 0).
Proof.
  intros Hs Ha Hm.
  destruct (available_actions_elem _ _ _ _ Hs Ha Hm)
    as (x1 & y1 & x2 & y2 & -> & H1 & Hx2 & Hy2 & _).
  destruct (shape_cell _ _ _ _ Hs Hx2 Hy2) as [v2 H2].
  exists x1, y1, x2, y2, v2. repeat split; [done..|]. by apply do_action_nat.
Qed.

(** ** Swapping two cells permutes the values *)

Lemma insert_head_perm {A} (l : list A) j a b :
  l !! j = Some b → b :: <[j := a]> l ≡ₚ a :: l.
Proof.
  revert j. induction l as [|h t IH]; intros [|j] Hj; simplify_eq/=.
  - apply perm_swap.
  - rewrite perm_swap, (IH _ Hj). apply perm_swap.
Qed.

Lemma insert_swap_perm {A} (l : list A) i j a b :
  l !! i = Some a → l !! j = Some b → <[j := a]> (<[i := b]> l) ≡ₚ l.
Proof.
  revert i j. induction l as [|h t IH]; intros [|i] [|j] Hi Hj; simplify_eq/=.
  - done.
  - by apply insert_head_perm.
  - by apply insert_head_perm.
  - f_equiv. by apply IH.
Qed.

Lemma mjoin_set_cell n (a : ndarray) x y v :
  Forall (λ row, length row = n) a → (y < n)%nat →
  mjoin (set_cell a x y v) = <[(x * n + y)%nat := v]> (mjoin a).
Proof.
  intros Hr Hy. revert x. unfold set_cell.
  induction Hr as [|row a Hrow Hr IH]; intros [|x]; simpl.
  - done.
  - done.
  - by rewrite insert_app_l by lia.
  - change (list_alter ?f x a) with (alter f x a). rewrite IH.
    rewrite <- Hrow at 2. rewrite <- Nat.add_assoc.
    by rewrite insert_app_r.
Qed.

Lemma mjoin_swapped n (a : ndarray) x1 y1 x2 y2 v1 v2 :
  shape n a → cell a x1 y1 = Some v1 → cell a x2 y2 = Some v2 →
  mjoin (set_cell (set_cell a x1 y1 v2) x2 y2 v1) ≡ₚ mjoin a.
Proof.
  intros Hs H1 H2.
  destruct (cell_shape_lt _ _ _ _ _ Hs H1) as [_ Hy1].
  destruct (cell_shape_lt _ _ _ _ _ Hs H2) as [_ Hy2].
  rewrite (mjoin_set_cell n) by (done || by apply shape_set_cell).
  rewrite (mjoin_set_cell n) by (done || by apply Hs).
  apply insert_swap_perm; by eapply cell_mjoin.
Qed.

Lemma is_configuration_swapped n (a : ndarray) x1 y1 x2 y2 v1 v2 :
  is_configuration n a → cell a x1 y1 = Some v1 → cell a x2 y2 = Some v2 →
  is_configuration n (set_cell (set_cell a x1 y1 v2) x2 y2 v1).
Proof.
  intros (Hs & Hone & Hperm) H1 H2.
  pose proof (mjoin_swapped _ _ _ _ _ _ _ _ Hs H1 H2) as Hp.
  split; [by do 2 apply shape_set_cell|]. by rewrite Hp.
Qed.

Lemma is_configuration_do_action n (a b : ndarray) :
  is_configuration n a → one_move n a b → is_configuration n b.
Proof.
  intros Hc (acts & m & Ha & Hm & Hd).
  destruct (do_action_available _ _ _ _ (proj1 Hc) Ha Hm)
    as (x1 & y1 & x2 & y2 & v2 & -> & H1 & H2 & Hd').
  rewrite Hd' in Hd. simplify_eq. by apply is_configuration_swapped.
Qed.

(** ** The frontier *)

Section HeapqFacts.
Context {A : Type} `{EqDecision A} (lt : A → A → bool).

Lemma heap_min_elem (h : list A) a : heap_min lt h = Some a → a ∈ h.
Proof.
  revert a. induction h as [|b h IH]; intros a Hm; simplify_eq/=.
  destruct (heap_min lt h) as [c|]; simplify_eq/=.
  - destruct (lt c b); simplify_eq; [right; by apply IH | left].
  - left.
Qed.

Lemma heap_min_nil (h : list A) : heap_min lt h = None ↔ h = [].
Proof.
  split; [|by intros ->]. destruct h as [|b h]; [done|]. simpl.
  destruct (heap_min lt h) as [c|]; [by destruct (lt c b)|done].
Qed.

Lemma remove_one_perm (a : A) (h : list A) : a ∈ h → h ≡ₚ a :: remove_one a h.
Proof.
  induction h as [|b h IH]; intros Hin; [by apply elem_of_nil in Hin|]. simpl.
  destruct (decide (a = b)) as [->|Hne]; [done|].
  apply elem_of_cons in Hin as [?|Hin]; [done|].
  rewrite perm_swap. f_equiv. by apply IH.
Qed.

Lemma heappop_perm (h : list A) a rest :
  heappop lt h = Some (a, rest) → h ≡ₚ a :: rest.
Proof.
  unfold heappop. intros Hp.
  destruct (heap_min lt h) as [b|] eqn:Hm; simplify_eq/=.
  apply remove_one_perm. by apply heap_min_elem.
Qed.

Lemma heappop_nil (h : list A) : heappop lt h = None ↔ h = [].
Proof.
  unfold heappop. rewrite <- heap_min_nil.
  destruct (heap_min lt h); simpl; split; intros; done.
Qed.
End HeapqFacts.

(** ** One iteration of the search *)

(** What the [for] loop pushes: one entry for each action, in their order,
    each with the child, the path extended by it, [g + 1] and
    [f = (g + 1) + heuristic(child, goal)]. *)
Lemma push_children_spec n goal cur path g acts fr fr' :
  push_children n goal cur path g acts fr = Some fr' →
  ∃ children,
    fr' = reverse children ++ fr
    ∧ Forall2 (λ act nd, ∃ child h,
         do_action cur act = Some child ∧ heuristic n child goal = Some h
         ∧ nd = (np_add (g + 1) h, child, path ++ [child], g + 1)) acts children.
Proof.
  revert fr. induction acts as [|act acts IH]; intros fr Hp; simplify_eq/=.
  - by exists [].
  - destruct (do_action cur act) as [child|] eqn:Hd; simplify_eq/=.
    destruct (heuristic n child goal) as [h|] eqn:Hh; simplify_eq/=.
    destruct (IH _ Hp) as (children & -> & Hall).
    exists ((np_add (g + 1) h, child, path ++ [child], g + 1) :: children). split.
    + rewrite reverse_cons. unfold heappush. by rewrite <- app_assoc.
    + constructor; [|done]. by exists child, h.
Qed.

(** The cases of one iteration that stays in the loop: the popped entry
    is not the goal, and either it was visited before and is dropped, or
    it is expanded. *)
Lemma search_step_Continue n goal st st' :
  search_step n goal st = Continue st' →
  ∃ f cur path g rest,
    heappop (node_lt) (frontier st) = Some ((f, cur, path, g), rest)
    ∧ array_equal_list cur goal = false
    ∧ (((tobytes cur ∈ visited st) ∧ st' = SearchState rest (visited st))
       ∨ ((tobytes cur ∉ visited st)
          ∧ ∃ acts fr',
              available_actions n cur = Some acts
              ∧ push_children n goal cur path g acts rest = Some fr'
              ∧ st' = SearchState fr' ({[tobytes cur]} ∪ visited st))).
Proof.
  unfold search_step. intros Hs.
  destruct (heappop node_lt (frontier st)) as [[[[[f cur] path] g] rest]|] eqn:Hp; [|done].
  exists f, cur, path, g, rest. split; [done|].
  destruct (array_equal_list cur goal); [done|]. split; [done|].
  destruct (bool_decide_reflect (tobytes cur ∈ visited st)) as [Hv|Hv].
  - left. by simplify_eq.
  - right. split; [done|].
    destruct (available_actions n cur) as [acts|]; [|done].
    destruct (push_children n goal cur path g acts rest) as [fr'|] eqn:Hc; [|done].
    exists acts, fr'. by simplify_eq.
Qed.

Lemma search_step_Stop_path n goal st p :
  search_step n goal st = Stop (Returns (Some p)) →
  ∃ f cur g rest,
    heappop (node_lt) (frontier st) = Some ((f, cur, p, g), rest)
    ∧ cur = goal ∧ cur ≠ [].
Proof.
  unfold search_step. intros Hs.
  destruct (heappop node_lt (frontier st)) as [[[[[f cur] path] g] rest]|] eqn:Hp; [|done].
  destruct (array_equal_list cur goal) eqn:He.
  - simplify_eq. exists f, cur, g, rest. split; [done|].
    destruct cur; [done|]. simpl in He. by apply bool_decide_eq_true_1 in He.
  - destruct (bool_decide (tobytes cur ∈ visited st)); [done|].
    destruct (available_actions n cur) as [acts|]; [|done].
    by destruct (push_children n goal cur path g acts rest).
Qed.

Lemma search_step_Stop_None n goal st :
  search_step n goal st = Stop (Returns None) ↔ frontier st = [].
Proof.
  unfold search_step. split.
  - intros Hs. apply (heappop_nil node_lt).
    destruct (heappop node_lt (frontier st)) as [[[[[f cur] path] g] rest]|]; [|done].
    destruct (array_equal_list cur goal); [done|].
    destruct (bool_decide (tobytes cur ∈ visited st)); [done|].
    destruct (available_actions n cur) as [acts|]; [|done].
    by destruct (push_children n goal cur path g acts rest).
  - intros Hf. by rewrite Hf.
Qed.

(** ** The paths in the frontier *)

Lemma legal_path_snoc n (p : list ndarray) a b :
  legal_path n p → list.last p = Some a → one_move n a b → legal_path n (p ++ [b]).
Proof.
  intros Hp Hl Hm i c d Hc Hd.
  destruct (decide (S i < length p)%nat) as [Hlt|Hge].
  - rewrite lookup_app_l in Hc by lia. rewrite lookup_app_l in Hd by lia. eauto.
  - assert (S i = length p) as Hi.
    { apply lookup_lt_Some in Hd. rewrite length_app in Hd. simpl in Hd. lia. }
    rewrite lookup_app_l in Hc by lia.
    rewrite lookup_app_r, Hi, Nat.sub_diag in Hd by lia. simplify_eq/=.
    rewrite last_lookup, <- Hi in Hl. simpl in Hl. by simplify_eq.
Qed.

Lemma search_step_frontier_ok n start goal st st' :
  frontier_ok n start (frontier st) → search_step n goal st = Continue st' →
  frontier_ok n start (frontier st').
Proof.
  intros Hok Hs.
  destruct (search_step_Continue _ _ _ _ Hs)
    as (f & cur & path & g & rest & Hp & _ & Hcases).
  apply heappop_perm in Hp. unfold frontier_ok in *.
  rewrite Hp in Hok. apply Forall_cons_1 in Hok as [Hnode Hrest].
  destruct Hcases as [[_ ->]|(_ & acts & fr' & Ha & Hc & ->)]; simpl; [done|].
  destruct (push_children_spec _ _ _ _ _ _ _ _ Hc) as (children & -> & Hall).
  apply Forall_app. split; [|done]. apply Forall_reverse.
  apply Forall_lookup. intros i nd Hi.
  destruct (Forall2_lookup_r _ _ _ _ _ Hall Hi) as (act & Hact & child & h & Hd & Hh & ->).
  destruct Hnode as (Hhead & Hlast & Hlegal). simpl in *.
  split; [|split]; simpl.
  - by destruct path.
  - by rewrite last_snoc.
  - eapply legal_path_snoc; [done..|]. exists acts, act. split; [done|].
    split; [by eapply list_elem_of_lookup_2|done].
Qed.

Lemma search_loop_path n start goal fuel st p :
  frontier_ok n start (frontier st) →
  search_loop n goal fuel st = Some (Returns (Some p)) →
  head p = Some start ∧ list.last p = Some goal ∧ legal_path n p.
Proof.
  revert st. induction fuel as [|fuel IH]; intros st Hok Hl; [done|]. simpl in Hl.
  destruct (search_step n goal st) as [r|st'] eqn:Hs.
  - simplify_eq.
    destruct (search_step_Stop_path _ _ _ _ Hs) as (f & cur & g & rest & Hp & -> & _).
    apply heappop_perm in Hp. unfold frontier_ok in Hok. rewrite Hp in Hok.
    by apply Forall_cons_1 in Hok as [Hnode _].
  - eapply IH; [|done]. by eapply search_step_frontier_ok.
Qed.

Lemma initial_state_ok n start : frontier_ok n start (frontier (initial_state start)).
Proof.
  unfold frontier_ok, initial_state, heappush. simpl.
  apply Forall_singleton. repeat split. intros [|i] a b Ha Hb; simplify_eq/=.
Qed.

Lemma legal_path_configurations n start (p : list ndarray) :
  is_configuration n start → head p = Some start → legal_path n p →
  Forall (is_configuration n) p.
Proof.
  intros Hc Hh Hl. apply Forall_lookup. intros i.
  induction i as [|i IH]; intros a Ha.
  - rewrite <- head_lookup, Hh in Ha. by simplify_eq.
  - destruct (lookup_lt_is_Some_2 p i) as [b Hb]; [apply lookup_lt_Some in Ha; lia|].
    eapply is_configuration_do_action; [by eapply IH|]. by eapply Hl.
Qed.

(** ** Array objects *)

(** The value-level [do_action] is what the function on array objects
    computes: a new array holding the result, the store otherwise as it
    was. *)
Lemma do_action_obj_refines (σ : store) state act :
  do_action_obj σ state act =
  c ← σ !! state; c' ← do_action c act;
  Some (fresh (dom σ), <[fresh (dom σ) := c']> σ).
Proof.
  unfold do_action_obj, ndarray_copy, obj_getitem, obj_setitem, do_action.
  destruct (σ !! state) as [c|]; [|done]. simpl.
  rewrite lookup_insert_eq. simpl.
  destruct (getitem c (pos2 act)) as [v2|]; [|done]. simpl.
  destruct (getitem c (pos1 act)) as [v1|]; [|done]. simpl.
  destruct (setitem c (pos1 act) v2) as [c1|]; [|done]. simpl.
  rewrite lookup_insert_eq. simpl.
  destruct (setitem c1 (pos2 act) v1) as [c2|]; [|done]. simpl.
  by rewrite !insert_insert_eq.
Qed.

(** ** Exhaustion *)

Lemma search_loop_exhausts n goal fuel st :
  search_loop n goal fuel st = Some (Returns None) →
  ∃ st', rtc (iterates n goal) st st' ∧ frontier st' = [].
Proof.
  revert st. induction fuel as [|fuel IH]; intros st Hl; [done|]. simpl in Hl.
  destruct (search_step n goal st) as [r|st1] eqn:Hs.
  - simplify_eq. exists st. split; [done|]. by apply (search_step_Stop_None n goal).
  - destruct (IH _ Hl) as (st' & Hsteps & Hempty).
    exists st'. split; [|done]. by eapply rtc_l.
Qed.

Lemma exhausted_search_loop n goal st st' :
  rtc (iterates n goal) st st' → frontier st' = [] →
  ∃ fuel, search_loop n goal fuel st = Some (Returns None).
Proof.
  intros Hsteps Hempty. induction Hsteps as [st|st st1 st' Hs _ IH].
  - exists 1%nat. simpl. by rewrite (proj2 (search_step_Stop_None n goal st)).
  - destruct (IH Hempty) as [fuel Hl]. exists (S fuel). simpl.
    unfold iterates in Hs. by rewrite Hs.
Qed.

(** ** The order of the frontier entries *)

Lemma lt_asym {A} (lt : A → A → bool) `{!StrictTotal lt} a b :
  lt a b = true → lt b a = false.
Proof.
  intros Hab. destruct (lt b a) eqn:Hba; [|done].
  by rewrite <- (lt_irrefl (lt := lt) a), (lt_trans a b a Hab Hba).
Qed.

Global Instance Z_ltb_strict_total : StrictTotal Z.ltb.
Proof.
  split.
  - intros a. apply Z.ltb_irrefl.
  - intros a b c. rewrite !Z.ltb_lt. lia.
  - intros a b Hne. rewrite !Z.ltb_lt. lia.
Qed.

Global Instance list_lt_strict_total {A} `{EqDecision A} (lt : A → A → bool)
  `{!StrictTotal lt} : StrictTotal (list_lt lt).
Proof.
  split.
  - intros l. induction l as [|a l IH]; [done|]. simpl. by rewrite decide_True.
  - intros l1. induction l1 as [|a l1 IH]; intros [|b l2] [|c l3]; simpl; try done.
    destruct (decide (a = b)) as [->|Hab]; destruct (decide (b = c)) as [->|Hbc];
      rewrite ?decide_True, ?decide_False by done; eauto.
    intros H1 H2. destruct (decide (a = c)) as [->|Hac].
    + by rewrite (lt_asym lt _ _ H1) in H2.
    + by eapply (lt_trans (lt := lt)).
  - intros l1. induction l1 as [|a l1 IH]; intros [|b l2] Hne; simpl; try (by auto).
    destruct (decide (a = b)) as [->|Hab].
    + rewrite decide_True by done. apply IH. congruence.
    + rewrite decide_False by done. by apply lt_total.
Qed.

Global Instance node_lt_strict_total : StrictTotal node_lt.
Proof.
  split.
  - intros [[[f s] p] g]. simpl. rewrite !decide_True by done. apply Z.ltb_irrefl.
  - intros [[[f1 s1] p1] g1] [[[f2 s2] p2] g2] [[[f3 s3] p3] g3]. simpl.
    repeat case_decide; simplify_eq; try done; intros Hlt1 Hlt2;
      try (by eapply (lt_trans (lt := Z.ltb)));
      try (by eapply (lt_trans (lt := grid_lt)));
      try (by eapply (lt_trans (lt := path_lt)));
      try (by rewrite (lt_asym _ _ _ Hlt1) in Hlt2).
  - intros [[[f1 s1] p1] g1] [[[f2 s2] p2] g2] Hne. simpl.
    repeat case_decide; simplify_eq; try done;
      try (by apply (lt_total (lt := Z.ltb)));
      try (by apply (lt_total (lt := grid_lt)));
      try (by apply (lt_total (lt := path_lt))).
    apply (lt_total (lt := Z.ltb)). congruence.
Qed.

(** ** The frontier does not depend on the layout of the heap *)

Section HeapqOrder.
Context {A : Type} `{EqDecision A} (lt : A → A → bool) `{!StrictTotal lt}.

(** [heappop] gives the least item. *)
Lemma heap_min_least (h : list A) m x :
  heap_min lt h = Some m → x ∈ h → lt x m = false.
Proof.
  revert m x. induction h as [|a h IH]; intros m x Hm Hx; [by apply elem_of_nil in Hx|].
  simpl in Hm. destruct (heap_min lt h) as [b|] eqn:Hb.
  - destruct (lt b a) eqn:Hba; simplify_eq.
    + apply elem_of_cons in Hx as [->|Hx]; [by apply (lt_asym lt)|by apply IH].
    + apply elem_of_cons in Hx as [->|Hx]; [by apply lt_irrefl|].
      destruct (lt x m) eqn:Hxm; [|done].
      pose proof (IH b x eq_refl Hx) as Hxb.
      destruct (decide (b = m)) as [->|Hne]; [congruence|].
      destruct (lt_total (lt := lt) b m Hne) as [Hbm|Hmb]; [congruence|].
      by rewrite (lt_trans x m b Hxm Hmb) in Hxb.
  - simplify_eq. apply heap_min_nil in Hb as ->.
    apply list_elem_of_singleton in Hx as ->. by apply lt_irrefl.
Qed.

Lemma heap_min_perm (h h' : list A) : h ≡ₚ h' → heap_min lt h = heap_min lt h'.
Proof.
  intros Hp.
  destruct (heap_min lt h) as [m|] eqn:Hm, (heap_min lt h') as [m'|] eqn:Hm'.
  - f_equal. destruct (decide (m = m')) as [|Hne]; [done|].
    pose proof (heap_min_elem _ _ _ Hm) as Hin.
    pose proof (heap_min_elem _ _ _ Hm') as Hin'.
    rewrite Hp in Hin. rewrite <- Hp in Hin'.
    pose proof (heap_min_least _ _ _ Hm Hin').
    pose proof (heap_min_least _ _ _ Hm' Hin).
    destruct (lt_total (lt := lt) m m' Hne); congruence.
  - apply heap_min_nil in Hm'. subst h'. apply Permutation_nil_r in Hp. by subst h.
  - apply heap_min_nil in Hm. subst h. apply Permutation_nil_l in Hp. by subst h'.
  - done.
Qed.

Lemma heappop_perm_proper (h h' : list A) a rest :
  h ≡ₚ h' → heappop lt h = Some (a, rest) →
  ∃ rest', heappop lt h' = Some (a, rest') ∧ rest ≡ₚ rest'.
Proof.
  intros Hp Hpop. pose proof (heappop_perm _ _ _ _ Hpop) as Hh.
  unfold heappop in *. rewrite <- (heap_min_perm _ _ Hp).
  destruct (heap_min lt h) as [m|] eqn:Hm; simplify_eq/=.
  eexists. split; [done|].
  apply (Permutation_cons_inv (a := a)).
  rewrite <- Hh, Hp. apply remove_one_perm.
  rewrite <- Hp. by eapply heap_min_elem.
Qed.
End HeapqOrder.

Lemma push_children_perm n goal cur path g acts (fr1 fr2 : list node) :
  fr1 ≡ₚ fr2 →
  match push_children n goal cur path g acts fr1,
        push_children n goal cur path g acts fr2 with
  | Some fr1', Some fr2' => fr1' ≡ₚ fr2'
  | None, None => True
  | _, _ => False
  end.
Proof.
  revert fr1 fr2. induction acts as [|act acts IH]; intros fr1 fr2 Hp; simpl; [done|].
  destruct (do_action cur act) as [child|]; simpl; [|done].
  destruct (heuristic n child goal) as [h|]; simpl; [|done].
  apply IH. unfold heappush. by f_equiv.
Qed.

Lemma search_step_same_entries n goal st1 st2 :
  same_entries st1 st2 →
  match search_step n goal st1, search_step n goal st2 with
  | Stop r1, Stop r2 => r1 = r2
  | Continue st1', Continue st2' => same_entries st1' st2'
  | _, _ => False
  end.
Proof.
  intros [Hf Hv]. unfold search_step.
  destruct (heappop node_lt (frontier st1)) as [[[[[f cur] path] g] rest]|] eqn:Hp1.
  - destruct (heappop_perm_proper node_lt _ _ _ _ Hf Hp1) as (rest' & -> & Hrest).
    rewrite <- Hv.
    destruct (array_equal_list cur goal); [done|].
    destruct (bool_decide (tobytes cur ∈ visited st1)); [done|].
    destruct (available_actions n cur) as [acts|]; [|done].
    pose proof (push_children_perm n goal cur path g acts _ _ Hrest) as Hc.
    destruct (push_children n goal cur path g acts rest),
      (push_children n goal cur path g acts rest'); done.
  - apply (heappop_nil node_lt) in Hp1. rewrite Hp1 in Hf.
    apply Permutation_nil_l in Hf. by rewrite <- Hf.
Qed.

Lemma search_loop_same_entries n goal fuel st1 st2 :
  same_entries st1 st2 → search_loop n goal fuel st1 = search_loop n goal fuel st2.
Proof.
  revert st1 st2. induction fuel as [|fuel IH]; intros st1 st2 Hst; [done|]. simpl.
  pose proof (search_step_same_entries n goal _ _ Hst) as Hs.
  destruct (search_step n goal st1), (search_step n goal st2); try done.
  - by subst.
  - by apply IH.
Qed.

(** Once the loop has ended, more iterations change nothing. *)
Lemma search_loop_more_fuel n goal fuel fuel' st r :
  search_loop n goal fuel st = Some r → (fuel ≤ fuel')%nat →
  search_loop n goal fuel' st = Some r.
Proof.
  revert fuel' st. induction fuel as [|fuel IH]; intros [|fuel'] st Hl Hle;
    try done; [lia|]. simpl in *.
  destruct (search_step n goal st); [done|]. apply IH; [done|lia].
Qed.

(** ** The heuristic *)

Lemma wrap64_id z : int64 z → wrap64 z = z.
Proof. intros [? ?]. unfold wrap64. rewrite Z.mod_small by lia. lia. Qed.

Lemma tile_distance_bound n x y v :
  (x < n)%nat → (y < n)%nat → 0 < v < Z.of_nat n * Z.of_nat n →
  0 ≤ (v - 1) `div` Z.of_nat n < Z.of_nat n
  ∧ 0 ≤ (v - 1) `mod` Z.of_nat n < Z.of_nat n
  ∧ 0 ≤ tile_distance n (x, y, v) ≤ 2 * Z.of_nat n.
Proof.
  intros Hx Hy Hv.
  assert (0 ≤ (v - 1) `div` Z.of_nat n < Z.of_nat n) as Hd.
  { split; [apply Z.div_pos; lia|]. apply Z.div_lt_upper_bound; lia. }
  assert (0 ≤ (v - 1) `mod` Z.of_nat n < Z.of_nat n) as Hm
    by (apply Z.mod_pos_bound; lia).
  split; [done|]. split; [done|]. unfold tile_distance. lia.
Qed.

Lemma cell_misplaced_cases (goal : ndarray) x y v gv :
  cell goal x y = Some gv →
  cell_misplaced goal (x, y, v) = if decide (v ≠ 0 ∧ gv ≠ v) then 1 else 0.
Proof.
  intros Hg. unfold cell_misplaced.
  destruct (decide (misplaced goal (x, y, v))) as [Hm|Hm],
    (decide (v ≠ 0 ∧ gv ≠ v)) as [Hd|Hd]; try done; exfalso;
    unfold misplaced in Hm; simpl in Hm; rewrite Hg in Hm.
  - apply Hd. destruct Hm as [? Hne]. split; [done|]. congruence.
  - apply Hm. destruct Hd as [? Hne]. split; [done|]. congruence.
Qed.

Lemma heuristic_cell_spec n (state goal : ndarray) x y v md mc :
  (x < n)%nat → (y < n)%nat → Z.of_nat n ≤ 2 ^ 20 →
  cell state x y = Some v → is_Some (cell goal x y) →
  0 ≤ v < Z.of_nat n * Z.of_nat n →
  0 ≤ md → md + 2 * Z.of_nat n < 2 ^ 63 →
  heuristic_cell n state goal x y (md, mc)
  = Some (md + cell_distance n (x, y, v), mc + cell_misplaced goal (x, y, v))
  ∧ 0 ≤ cell_distance n (x, y, v) ≤ 2 * Z.of_nat n
  ∧ 0 ≤ cell_misplaced goal (x, y, v) ≤ 1.
Proof.
  intros Hx Hy Hn Hc [gv Hg] Hv Hmd Hbound.
  rewrite (cell_misplaced_cases _ _ _ _ _ Hg).
  unfold heuristic_cell, cell_distance, non_blank. simpl.
  rewrite !getitem_nat, Hc, Hg. simpl.
  destruct (decide (v = 0)) as [->|Hv0].
  - rewrite bool_decide_eq_false_2 by (by intros ?).
    rewrite decide_False by (by intros ?).
    rewrite decide_False by (by intros [? _]).
    rewrite !Z.add_0_r. split; [done|lia].
  - rewrite bool_decide_eq_true_2 by done. rewrite decide_True by done.
    destruct (tile_distance_bound n x y v Hx Hy ltac:(lia)) as (Hd & Hm & Ht).
    unfold tile_distance in *.
    assert (Z.of_nat n * Z.of_nat n ≤ 2 ^ 40) by nia.
    unfold np_divmod, np_sub, np_add, np_abs.
    rewrite (wrap64_id (v - 1)) by (unfold int64; lia).
    rewrite (wrap64_id (_ - _ `div` _)) by (unfold int64; lia).
    rewrite (wrap64_id (_ - _ `mod` _)) by (unfold int64; lia).
    rewrite !(wrap64_id (Z.abs _)) by (unfold int64; lia).
    rewrite (wrap64_id (Z.abs _ + Z.abs _)) by (unfold int64; lia).
    rewrite wrap64_id by (unfold int64; lia).
    destruct (decide (gv = v)) as [->|Hgv].
    + rewrite bool_decide_eq_false_2 by (by intros ?).
      rewrite decide_False by (by intros [_ ?]).
      rewrite Z.add_0_r. split; [done|lia].
    + rewrite bool_decide_eq_true_2 by done.
      rewrite decide_True by done.
      split; [done|lia].
Qed.

Lemma sumZ_cons a l : sumZ (a :: l) = a + sumZ l.
Proof. done. Qed.

Lemma sumZ_app l1 l2 : sumZ (l1 ++ l2) = sumZ l1 + sumZ l2.
Proof.
  induction l1 as [|a l1 IH]; [done|].
  rewrite <- app_comm_cons, !sumZ_cons, IH. lia.
Qed.

Lemma sumZ_filter {A} (P : A → Prop) `{∀ x, Decision (P x)} (f : A → Z) (l : list A) :
  sumZ (f <$> filter P l) = sumZ ((λ x, if decide (P x) then f x else 0) <$> l).
Proof.
  induction l as [|a l IH]; [done|]. rewrite filter_cons, fmap_cons, sumZ_cons.
  destruct (decide (P a)); rewrite ?fmap_cons, ?sumZ_cons, IH; lia.
Qed.

Lemma length_filter_sumZ {A} (P : A → Prop) `{∀ x, Decision (P x)} (l : list A) :
  Z.of_nat (length (filter P l)) = sumZ ((λ x, if decide (P x) then 1 else 0) <$> l).
Proof.
  induction l as [|a l IH]; [done|]. rewrite filter_cons, fmap_cons, sumZ_cons.
  destruct (decide (P a)); rewrite ?length_cons, ?Nat2Z.inj_succ, IH; lia.
Qed.

Lemma row_cells_cons x k v suf :
  row_cells x k (v :: suf) = (x, k, v) :: row_cells x (S k) suf.
Proof.
  unfold row_cells. simpl. rewrite Nat.add_0_r. f_equal.
  apply imap_ext. intros j w _. simpl. do 2 f_equal. lia.
Qed.

Lemma rows_cells_cons k row rows :
  rows_cells k (row :: rows) = row_cells k 0 row ++ rows_cells (S k) rows.
Proof.
  unfold rows_cells. simpl. rewrite Nat.add_0_r. f_equal. f_equal.
  apply imap_ext. intros i r _. simpl. f_equal. lia.
Qed.

Lemma for_range_cons {S} i r (body : nat → S → option S) s :
  for_range (i :: r) body s = body i s ≫= for_range r body.
Proof. done. Qed.

(** The inner loop, over the columns of row [x] from column [k] on. *)
Lemma heuristic_row_spec n (state goal : ndarray) x (suf : list Z) k md mc :
  (x < n)%nat → Z.of_nat n ≤ 2 ^ 20 →
  (∀ j v, suf !! j = Some v →
     cell state x (k + j) = Some v ∧ is_Some (cell goal x (k + j))
     ∧ 0 ≤ v < Z.of_nat n * Z.of_nat n ∧ (k + j < n)%nat) →
  0 ≤ md → md + 2 * Z.of_nat n * Z.of_nat (length suf) < 2 ^ 63 →
  for_range (seq k (length suf)) (λ y, heuristic_cell n state goal x y) (md, mc)
  = Some (md + sumZ (cell_distance n <$> row_cells x k suf),
          mc + sumZ (cell_misplaced goal <$> row_cells x k suf))
  ∧ 0 ≤ sumZ (cell_distance n <$> row_cells x k suf)
      ≤ 2 * Z.of_nat n * Z.of_nat (length suf)
  ∧ 0 ≤ sumZ (cell_misplaced goal <$> row_cells x k suf) ≤ Z.of_nat (length suf).
Proof.
  intros Hx Hn. revert k md mc.
  induction suf as [|v suf IH]; intros k md mc Hcells Hmd Hbound.
  - simpl. rewrite !Z.add_0_r. split; [done|]. unfold sumZ; simpl. lia.
  - rewrite row_cells_cons, !fmap_cons, !sumZ_cons. simpl length in *.
    rewrite <- cons_seq, for_range_cons. cbv beta.
    destruct (Hcells 0%nat v eq_refl) as (Hc & Hg & Hv & Hk).
    rewrite Nat.add_0_r in Hc, Hg, Hk.
    rewrite Nat2Z.inj_succ, Z.mul_succ_r in Hbound.
    destruct (heuristic_cell_spec n state goal x k v md mc Hx Hk Hn Hc Hg Hv Hmd
                ltac:(lia)) as (-> & Hd & Hm).
    simpl.
    destruct (IH (S k) (md + cell_distance n (x, k, v))
                (mc + cell_misplaced goal (x, k, v))) as (-> & Hd' & Hm').
    { intros j w Hj. destruct (Hcells (S j) w Hj) as (? & ? & ? & ?).
      by rewrite Nat.add_succ_r in *. }
    { lia. }
    { lia. }
    split; [f_equal; f_equal; lia|]. rewrite Nat2Z.inj_succ, Z.mul_succ_r. lia.
Qed.

(** The outer loop, over the rows from row [k] on. *)
Lemma heuristic_rows_spec n (state goal : ndarray) (rows : list (list Z)) k md mc :
  Z.of_nat n ≤ 2 ^ 20 →
  (∀ i row, rows !! i = Some row →
     state !! (k + i)%nat = Some row ∧ length row = n ∧ (k + i < n)%nat
     ∧ Forall (λ v, 0 ≤ v < Z.of_nat n * Z.of_nat n) row
     ∧ ∀ y, (y < n)%nat → is_Some (cell goal (k + i) y)) →
  0 ≤ md → md + 2 * Z.of_nat n * Z.of_nat n * Z.of_nat (length rows) < 2 ^ 63 →
  for_range (seq k (length rows))
    (λ x, for_range (seq 0 n) (λ y, heuristic_cell n state goal x y)) (md, mc)
  = Some (md + sumZ (cell_distance n <$> rows_cells k rows),
          mc + sumZ (cell_misplaced goal <$> rows_cells k rows))
  ∧ 0 ≤ sumZ (cell_distance n <$> rows_cells k rows)
      ≤ 2 * Z.of_nat n * Z.of_nat n * Z.of_nat (length rows)
  ∧ 0 ≤ sumZ (cell_misplaced goal <$> rows_cells k rows)
      ≤ Z.of_nat n * Z.of_nat (length rows).
Proof.
  intros Hn. revert k md mc.
  induction rows as [|row rows IH]; intros k md mc Hrows Hmd Hbound.
  - simpl. rewrite !Z.add_0_r. split; [done|]. unfold sumZ; simpl. lia.
  - rewrite rows_cells_cons, !fmap_app, !sumZ_app.
    simpl length in *. rewrite <- cons_seq, for_range_cons. cbv beta.
    destruct (Hrows 0%nat row eq_refl) as (Hrow & Hlen & Hk & Hrange & Hgoal).
    rewrite Nat.add_0_r in Hrow, Hk.
    rewrite Nat2Z.inj_succ, Z.mul_succ_r in Hbound.
    destruct (heuristic_row_spec n state goal k row 0 md mc Hk Hn) as (Hrun & Hd & Hm).
    { intros j v Hj. simpl. unfold cell at 1. rewrite Hrow. simpl.
      split; [done|]. split.
      - rewrite <- (Nat.add_0_r k). apply Hgoal. rewrite <- Hlen. by eapply lookup_lt_Some.
      - split; [by eapply (Forall_lookup_1 _ _ _ _ Hrange)|].
        rewrite <- Hlen. by eapply lookup_lt_Some. }
    { done. }
    { rewrite Hlen. lia. }
    rewrite Hlen in Hrun, Hd, Hm. rewrite Hrun. simpl.
    destruct (IH (S k) (md + sumZ (cell_distance n <$> row_cells k 0 row))
                (mc + sumZ (cell_misplaced goal <$> row_cells k 0 row)))
      as (-> & Hd' & Hm').
    { intros i r Hi. destruct (Hrows (S i) r Hi) as (? & ? & ? & ? & ?).
      by rewrite Nat.add_succ_r in *. }
    { lia. }
    { lia. }
    split; [f_equal; f_equal; lia|]. rewrite Nat2Z.inj_succ, !Z.mul_succ_r. lia.
Qed.

(** ** The table of goal positions *)

(** [goal_positions] holds, for every tile, the pair that [heuristic]
    computes again with [divmod]. *)
Lemma goal_positions_lookup n v :
  1 ≤ v < Z.of_nat n * Z.of_nat n →
  goal_positions n !! v = Some (np_divmod (v - 1) (Z.of_nat n)).
Proof.
  intros Hv. unfold goal_positions. apply elem_of_list_to_map_1.
  - rewrite <- list_fmap_compose.
    rewrite (list_fmap_ext _ id (seqZ 1 (Z.of_nat n * Z.of_nat n - 1)))
      by (by intros).
    rewrite list_fmap_id. apply NoDup_seqZ.
  - apply list_elem_of_fmap. exists v. split; [done|].
    apply elem_of_seqZ. lia.
Qed.

(** The cells of a configuration are values of [0 .. n²-1]. *)
Lemma is_configuration_cells_in_range n (a : ndarray) :
  is_configuration n a → cells_in_range n a.
Proof.
  intros ([Hlen _] & _ & Hperm). unfold cells_in_range.
  apply list.Forall_forall. intros row Hrow. apply list.Forall_forall. intros v Hv.
  destruct (decide (v = 0)) as [->|Hne].
  - destruct a as [|r a]; [by apply elem_of_nil in Hrow|]. simpl in Hlen. nia.
  - assert (v ∈ seqZ 1 (Z.of_nat n * Z.of_nat n - 1)) as Hin.
    { rewrite <- Hperm. apply list_elem_of_filter. split; [done|].
      apply list_elem_of_join. eauto. }
    apply elem_of_seqZ in Hin. lia.
Qed.

(** ** The search ends *)

Lemma tobytes_mjoin (a : ndarray) : tobytes a = mjoin a ≫= int64_bytes.
Proof.
  unfold tobytes. induction a as [|row a IH]; [done|].
  simpl. rewrite bind_app. by rewrite <- IH.
Qed.

Lemma tobytes_fingerprint (start s : ndarray) :
  mjoin s ≡ₚ mjoin start → tobytes s ∈ fingerprints start.
Proof.
  intros Hp. unfold fingerprints. apply elem_of_list_to_set, list_elem_of_fmap.
  exists (mjoin s). split; [apply tobytes_mjoin|]. by apply permutations_Permutation.
Qed.

Lemma available_actions_le4 n (a : ndarray) acts :
  available_actions n a = Some acts → (length acts ≤ 4)%nat.
Proof.
  unfold available_actions. destruct (where_zero_first a) as [[x y]|]; [|done].
  simpl. intros ?; simplify_eq.
  repeat match goal with
  | |- context [bool_decide ?P] => destruct (bool_decide P)
  end; simpl; lia.
Qed.

Lemma search_step_potential n start goal st st' :
  Forall (entry_reachable n start) (frontier st) →
  search_step n goal st = Continue st' →
  Forall (entry_reachable n start) (frontier st')
  ∧ (potential start st' < potential start st)%nat.
Proof.
  intros Hinv Hs.
  destruct (search_step_Continue _ _ _ _ Hs)
    as (f & cur & path & g & rest & Hp & _ & Hcases).
  apply heappop_perm in Hp. rewrite Hp in Hinv.
  apply Forall_cons_1 in Hinv as [[Hshape Hperm] Hrest]. simpl in Hshape, Hperm.
  unfold potential. rewrite Hp.
  destruct Hcases as [[_ ->]|(Hnew & acts & fr' & Ha & Hc & ->)]; simpl.
  - split; [done|lia].
  - destruct (push_children_spec _ _ _ _ _ _ _ _ Hc) as (children & -> & Hall).
    split.
    + apply Forall_app. split; [|done]. apply Forall_reverse.
      apply Forall_lookup. intros i nd Hi.
      destruct (Forall2_lookup_r _ _ _ _ _ Hall Hi)
        as (act & Hact & child & h & Hd & _ & ->).
      destruct (do_action_available n cur acts act Hshape Ha)
        as (x1 & y1 & x2 & y2 & v2 & -> & H1 & H2 & Hd');
        [by eapply list_elem_of_lookup_2|].
      rewrite Hd' in Hd. simplify_eq. split; simpl.
      * by do 2 apply shape_set_cell.
      * by rewrite (mjoin_swapped n).
    + rewrite length_app, length_reverse, <- (list.Forall2_length _ _ _ Hall).
      pose proof (available_actions_le4 _ _ _ Ha).
      assert (fingerprints start ∖ ({[tobytes cur]} ∪ visited st)
              ⊂ fingerprints start ∖ visited st) as Hsub.
      { pose proof (tobytes_fingerprint start cur Hperm) as Hin. split.
        - intros b. rewrite !elem_of_difference, not_elem_of_union. tauto.
        - intros Hback. specialize (Hback (tobytes cur)).
          rewrite !elem_of_difference, not_elem_of_union, elem_of_singleton in Hback.
          by destruct Hback as [_ [? _]]. }
      apply subset_size in Hsub. lia.
Qed.

Lemma search_loop_ends n start goal fuel st :
  Forall (entry_reachable n start) (frontier st) →
  (potential start st < fuel)%nat →
  is_Some (search_loop n goal fuel st).
Proof.
  revert st. induction fuel as [|fuel IH]; intros st Hinv Hpot; [lia|]. simpl.
  destruct (search_step n goal st) as [r|st'] eqn:Hs; [done|].
  destruct (search_step_potential _ _ _ _ _ Hinv Hs) as [Hinv' Hlt].
  apply IH; [done|lia].
Qed.

(** On grids of dimension [n], no index of [heuristic] is out of range. *)
Lemma heuristic_cell_is_Some n (s g : ndarray) x y acc :
  shape n s → shape n g → (x < n)%nat → (y < n)%nat →
  is_Some (heuristic_cell n s g x y acc).
Proof.
  intros Hs Hg Hx Hy. unfold heuristic_cell. destruct acc as [md mc].
  rewrite !getitem_nat.
  destruct (shape_cell _ _ _ _ Hs Hx Hy) as [v ->].
  destruct (shape_cell _ _ _ _ Hg Hx Hy) as [w ->]. simpl.
  repeat case_bool_decide; done.
Qed.

Lemma for_range_is_Some {S} (r : list nat) (body : nat → S → option S) (s : S) :
  (∀ i s', i ∈ r → is_Some (body i s')) → is_Some (for_range r body s).
Proof.
  revert s. induction r as [|i r IH]; intros s Hbody; [done|]. simpl.
  destruct (Hbody i s) as [s' ->]; [left|]. simpl.
  apply IH. intros j s'' Hj. apply Hbody. by right.
Qed.

Lemma heuristic_is_Some n (s g : ndarray) :
  shape n s → shape n g → is_Some (heuristic n s g).
Proof.
  intros Hs Hg. unfold heuristic.
  destruct (for_range_is_Some (seq 0 n)
              (λ x, for_range (seq 0 n) (λ y, heuristic_cell n s g x y)) (0, 0))
    as [[md mc] ->]; [|done].
  intros x acc Hx. apply for_range_is_Some. intros y acc' Hy.
  apply elem_of_seq in Hx, Hy. apply heuristic_cell_is_Some; (done || lia).
Qed.

Lemma push_children_is_Some n goal cur path g acts acts' fr :
  shape n cur → shape n goal → available_actions n cur = Some acts' →
  acts ⊆ acts' →
  is_Some (push_children n goal cur path g acts fr).
Proof.
  intros Hs Hg Ha. revert fr. induction acts as [|act acts IH]; intros fr Hsub; [done|].
  simpl.
  destruct (do_action_available n cur acts' act Hs Ha)
    as (x1 & y1 & x2 & y2 & v2 & -> & H1 & H2 & ->); [set_solver|]. simpl.
  destruct (heuristic_is_Some n (set_cell (set_cell cur x1 y1 v2) x2 y2 0) goal)
    as [h ->]; [by do 2 apply shape_set_cell|done|]. simpl.
  apply IH. set_solver.
Qed.

Lemma search_step_no_exception n start goal st :
  shape n goal → 0 ∈ mjoin start →
  Forall (entry_reachable n start) (frontier st) →
  search_step n goal st ≠ Stop Raises.
Proof.
  intros Hg H0 Hinv. unfold search_step.
  destruct (heappop node_lt (frontier st)) as [[[[[f cur] path] g] rest]|] eqn:Hp; [|done].
  apply heappop_perm in Hp. rewrite Hp in Hinv.
  apply Forall_cons_1 in Hinv as [[Hshape Hperm] Hrest]. simpl in Hshape, Hperm.
  destruct (array_equal_list cur goal); [done|].
  destruct (bool_decide (tobytes cur ∈ visited st)); [done|].
  assert (is_Some (where_zero_first cur)) as [[zx zy] Hw].
  { rewrite <- Hperm in H0. apply list_elem_of_join in H0 as (row & Hin & Hrow).
    apply list_elem_of_lookup in Hrow as [x Hx]. apply list_elem_of_lookup in Hin as [y Hy].
    apply (where_zero_first_is_Some cur x y). unfold cell. rewrite Hx. exact Hy. }
  destruct (available_actions n cur) as [acts|] eqn:Ha;
    [|by unfold available_actions in Ha; rewrite Hw in Ha].
  destruct (push_children_is_Some n goal cur path g acts acts rest) as [fr' ->]; done.
Qed.

Lemma search_loop_no_exception n start goal fuel st :
  shape n goal → 0 ∈ mjoin start →
  Forall (entry_reachable n start) (frontier st) →
  search_loop n goal fuel st ≠ Some Raises.
Proof.
  intros Hg H0. revert st. induction fuel as [|fuel IH]; intros st Hinv; [done|]. simpl.
  destruct (search_step n goal st) as [r|st'] eqn:Hs.
  - intros ?; simplify_eq. by eapply search_step_no_exception.
  - apply IH. by eapply search_step_potential.
Qed.

Lemma initial_state_reachable n start :
  shape n start → Forall (entry_reachable n start) (frontier (initial_state start)).
Proof. intros Hs. by apply Forall_singleton. Qed.

(** [solve_puzzle] ends on every grid of dimension [n], within a number
    of iterations bounded by the number of arrangements of its cells; on a
    grid with a blank and a goal of the same dimension it ends without an
    exception. *)
Lemma solve_puzzle_ends n (start goal : ndarray) :
  shape n start →
  ∃ fuel r,
    (∀ fuel', (fuel ≤ fuel')%nat → solve_puzzle n fuel' start goal = Some r)
    ∧ (shape n goal → 0 ∈ mjoin start → r ≠ Raises).
Proof.
  intros Hs. pose proof (initial_state_reachable n start Hs) as Hinv.
  set (fuel := S (potential start (initial_state start))).
  destruct (search_loop_ends n start goal fuel _ Hinv ltac:(lia)) as [r Hr].
  exists fuel, r. split.
  - intros fuel' Hle. by eapply search_loop_more_fuel.
  - intros Hg H0 ->. by eapply search_loop_no_exception.
Qed.

(** * The properties of the specification *)

(** C1. If [solve_puzzle(start, goal)] returns a path, the path begins
    with [start], ends with a configuration equal to [goal] cell by cell,
    and every configuration after the first is the result of [do_action]
    on its predecessor and one move of [available_actions] of that
    predecessor. *)
Theorem solve_puzzle_path_sound n fuel (start goal : ndarray) path :
  solve_puzzle n fuel start goal = Some (Returns (Some path)) →
  head path = Some start
  ∧ list.last path = Some goal
  ∧ ∀ i a b, path !! i = Some a → path !! S i = Some b →
      ∃ acts m, available_actions n a = Some acts ∧ m ∈ acts ∧ do_action a m = Some b.
Proof.
  intros Hsolve.
  exact (search_loop_path n start goal fuel _ path (initial_state_ok n start) Hsolve).
Qed.

Lemma solve_puzzle_path_sound_witness :
  let start := [[1;2;3];[4;0;6];[7;5;8]] in
  let goal := [[1;2;3];[4;5;6];[7;8;0]] in
  let path := [start; [[1;2;3];[4;5;6];[7;0;8]]; goal] in
  solve_puzzle 3 20 start goal = Some (Returns (Some path))
  ∧ head path = Some start
  ∧ list.last path = Some goal
  ∧ ∀ i a b, path !! i = Some a → path !! S i = Some b →
      ∃ acts m, available_actions 3 a = Some acts ∧ m ∈ acts ∧ do_action a m = Some b.
Proof.
  intros start goal path.
  assert (Hrun : solve_puzzle 3 20 start goal = Some (Returns (Some path)))
    by (vm_compute; reflexivity).
  split; [exact Hrun|]. exact (solve_puzzle_path_sound 3 20 start goal path Hrun).
Defined.

(** C2. [solve_puzzle(s, s)] returns exactly the one-element path [[s]]:
    the start entry is popped and passes the goal test before anything is
    expanded. A configuration has a blank, so it has at least one row. *)
Theorem solve_puzzle_start_is_goal n fuel (s : ndarray) :
  s ≠ [] → solve_puzzle n (S fuel) s s = Some (Returns (Some [s])).
Proof.
  intros Hs. unfold solve_puzzle, initial_state, heappush. simpl.
  unfold search_step, heappop. simpl.
  destruct s as [|row s]; [done|]. simpl.
  by rewrite bool_decide_eq_true_2.
Qed.

Lemma solve_puzzle_start_is_goal_witness :
  [[1;2;3];[4;0;6];[7;5;8]] ≠ ([] : ndarray)
  ∧ solve_puzzle 3 1 [[1;2;3];[4;0;6];[7;5;8]] [[1;2;3];[4;0;6];[7;5;8]]
    = Some (Returns (Some [[[1;2;3];[4;0;6];[7;5;8]]])).
Proof.
  assert (Hne : [[1;2;3];[4;0;6];[7;5;8]] ≠ ([] : ndarray)) by discriminate.
  split; [exact Hne|]. exact (solve_puzzle_start_is_goal 3 0 _ Hne).
Defined.

(** C3. [solve_puzzle] returns [None] exactly when the loop, iteration
    after iteration, reaches an empty frontier; every iteration on the way
    popped an entry whose configuration is not the goal. A returned result
    is [None] exactly when it is false for the caller's [if solution:], and
    a returned path is never empty (it ends with the goal), the one-element
    path for [start = goal] included. From a configuration, with a goal of
    the same dimension, the search does end, with a path or with [None]. *)
Theorem solve_puzzle_exhaustion n (start goal : ndarray) :
  ((∃ fuel, solve_puzzle n fuel start goal = Some (Returns None))
   ↔ ∃ st, rtc (iterates n goal) (initial_state start) st ∧ frontier st = [])
  ∧ (∀ st st', iterates n goal st st' →
       ∃ f cur path g rest,
         heappop node_lt (frontier st) = Some ((f, cur, path, g), rest)
         ∧ array_equal_list cur goal = false)
  ∧ (∀ fuel r, solve_puzzle n fuel start goal = Some (Returns r) →
       (r = None ↔ truthy r = false)
       ∧ ∀ path, r = Some path → path ≠ [] ∧ list.last path = Some goal)
  ∧ (∀ fuel, start ≠ [] →
       solve_puzzle n (S fuel) start start = Some (Returns (Some [start]))
       ∧ truthy (Some [start]) = true)
  ∧ (is_configuration n start → shape n goal →
       ∃ fuel r, ∀ fuel', (fuel ≤ fuel')%nat →
         solve_puzzle n fuel' start goal = Some (Returns r)).
Proof.
  split; [|split; [|split; [|split]]].
  - split.
    + intros [fuel Hl]. by eapply search_loop_exhausts.
    + intros (st & Hsteps & Hempty). by eapply exhausted_search_loop.
  - intros st st' Hs.
    destruct (search_step_Continue _ _ _ _ Hs) as (f & cur & path & g & rest & Hp & Hne & _).
    by exists f, cur, path, g, rest.
  - intros fuel r Hsolve.
    assert (Hpath : ∀ path, r = Some path → path ≠ [] ∧ list.last path = Some goal).
    { intros path ->.
      destruct (search_loop_path n start goal fuel _ path (initial_state_ok n start) Hsolve)
        as (Hhead & Hlast & _).
      split; [|done]. by intros ->. }
    split; [|done].
    destruct r as [[|a path]|]; simpl; [|done..].
    by destruct (Hpath [] eq_refl) as [? _].
  - intros fuel Hs. split; [|done].
    unfold solve_puzzle, initial_state, heappush. simpl.
    unfold search_step, heappop. simpl.
    destruct start as [|row s]; [done|]. simpl.
    by rewrite bool_decide_eq_true_2.
  - intros Hc Hg.
    destruct (solve_puzzle_ends n start goal (proj1 Hc)) as (fuel & r & Hrun & Hr).
    assert (0 ∈ mjoin start) as H0.
    { destruct Hc as (_ & Hone & _).
      destruct (filter (λ v, v = 0) (mjoin start)) as [|z l] eqn:Hf; [done|].
      assert (z ∈ filter (λ v, v = 0) (mjoin start)) as Hz by (rewrite Hf; left).
      by apply list_elem_of_filter in Hz as [-> ?]. }
    destruct r as [r|]; [|by destruct (Hr Hg H0)].
    by exists fuel, r.
Qed.

(** C4. For grids [c] and [g] of dimension [n] with the cells of [c] in
    [0 .. n²-1], [heuristic(c, g)] is the sum over the non-blank cells
    (value [v] at row [x], column [y]) of
    [|x - (v-1) div n| + |y - (v-1) mod n|], plus twice the number of
    non-blank cells whose value differs from the cell of [g] at the same
    coordinate; it is an integer [>= 0]. The 64-bit sums do not wrap for
    any board that fits in memory ([n ≤ 2^20]). *)
Theorem heuristic_formula_correct n (c g : ndarray) :
  shape n c → shape n g → cells_in_range n c → Z.of_nat n ≤ 2 ^ 20 →
  heuristic n c g = Some (heuristic_formula n c g)
  ∧ 0 ≤ heuristic_formula n c g.
Proof.
  intros Hc Hg Hrange Hn.
  assert (Z.of_nat n * Z.of_nat n ≤ 2 ^ 40) as Hn2 by nia.
  assert (Z.of_nat n * Z.of_nat n * Z.of_nat n ≤ 2 ^ 60) as Hn3 by nia.
  destruct (heuristic_rows_spec n c g c 0 0 0 Hn) as (Hrun & Hd & Hm).
  { intros i row Hi. simpl. split; [done|].
    split; [by eapply (Forall_lookup_1 _ _ _ _ (proj2 Hc))|].
    split; [rewrite <- (proj1 Hc); by eapply lookup_lt_Some|].
    split; [by eapply (Forall_lookup_1 _ _ _ _ Hrange)|].
    intros y Hy. eapply shape_cell; [done| |done].
    rewrite <- (proj1 Hc). by eapply lookup_lt_Some. }
  { done. }
  { rewrite (proj1 Hc). lia. }
  rewrite (proj1 Hc) in Hrun, Hd, Hm. rewrite !Z.add_0_l in Hrun.
  unfold heuristic. rewrite Hrun. simpl.
  unfold heuristic_formula, manhattan_term, misplacement_term.
  rewrite sumZ_filter, length_filter_sumZ. change (cells c) with (rows_cells 0 c).
  change (λ x, if decide (non_blank x) then tile_distance n x else 0)
    with (cell_distance n).
  change (λ x, if decide (misplaced g x) then 1 else 0) with (cell_misplaced g).
  unfold np_add. rewrite wrap64_id by (unfold int64; lia).
  split; [done|lia].
Qed.

Lemma heuristic_formula_correct_witness :
  shape 3 [[8;2;3];[4;0;6];[7;5;1]] ∧ shape 3 [[1;2;3];[4;5;6];[7;8;0]]
  ∧ cells_in_range 3 [[8;2;3];[4;0;6];[7;5;1]] ∧ Z.of_nat 3 ≤ 2 ^ 20
  ∧ heuristic 3 [[8;2;3];[4;0;6];[7;5;1]] [[1;2;3];[4;5;6];[7;8;0]]
    = Some (heuristic_formula 3 [[8;2;3];[4;0;6];[7;5;1]] [[1;2;3];[4;5;6];[7;8;0]])
  ∧ 0 ≤ heuristic_formula 3 [[8;2;3];[4;0;6];[7;5;1]] [[1;2;3];[4;5;6];[7;8;0]].
Proof.
  assert (Hc : shape 3 [[8;2;3];[4;0;6];[7;5;1]]) by by_compute.
  assert (Hg : shape 3 [[1;2;3];[4;5;6];[7;8;0]]) by by_compute.
  assert (Hr : cells_in_range 3 [[8;2;3];[4;0;6];[7;5;1]]) by by_compute.
  assert (Hn : Z.of_nat 3 ≤ 2 ^ 20) by (vm_compute; discriminate).
  split; [exact Hc|]. split; [exact Hg|]. split; [exact Hr|]. split; [exact Hn|].
  exact (heuristic_formula_correct 3 _ _ Hc Hg Hr Hn).
Defined.

(** C5. Every legal move is its own inverse: for a grid [c] of dimension
    [n] and a move [m] of [available_actions(c)], [do_action] applies to
    [c] and [m], and applying [m] again to the result gives [c] back. *)
Theorem do_action_self_inverse n (c : ndarray) acts m :
  shape n c → available_actions n c = Some acts → m ∈ acts →
  ∃ c', do_action c m = Some c' ∧ do_action c' m = Some c.
Proof.
  intros Hs Ha Hm.
  destruct (do_action_available _ _ _ _ Hs Ha Hm)
    as (x1 & y1 & x2 & y2 & v2 & -> & H1 & H2 & Hd).
  eexists. split; [done|]. by apply do_action_twice_nat.
Qed.

Lemma do_action_self_inverse_witness :
  shape 3 [[1;2;3];[4;0;6];[7;5;8]]
  ∧ available_actions 3 [[1;2;3];[4;0;6];[7;5;8]]
    = Some [action (1,1) (0,1); action (1,1) (2,1); action (1,1) (1,0); action (1,1) (1,2)]
  ∧ ∃ c', do_action [[1;2;3];[4;0;6];[7;5;8]] (action (1,1) (2,1)) = Some c'
          ∧ do_action c' (action (1,1) (2,1)) = Some [[1;2;3];[4;0;6];[7;5;8]].
Proof.
  assert (Hs : shape 3 [[1;2;3];[4;0;6];[7;5;8]]) by (by_compute).
  split; [exact Hs|]. split; [reflexivity|].
  apply (do_action_self_inverse 3 _ _ _ Hs eq_refl).
  by_compute.
Defined.

(** C6. For a configuration of dimension [n > 1], [available_actions]
    returns exactly 2 moves when the blank is in a corner, 3 when it is on
    an edge and not in a corner, 4 when it is interior; never fewer than 2
    nor more than 4. *)
Theorem available_actions_length n (c : ndarray) x y :
  (1 < n)%nat → is_configuration n c → cell c x y = Some 0 →
  ∃ acts,
    available_actions n c = Some acts
    ∧ (blank_in_corner n x y → length acts = 2%nat)
    ∧ (blank_on_edge n x y → length acts = 3%nat)
    ∧ (blank_interior n x y → length acts = 4%nat)
    ∧ (2 ≤ length acts ≤ 4)%nat.
Proof.
  intros Hn Hc Hb.
  destruct (cell_shape_lt _ _ _ _ _ (proj1 Hc) Hb) as [Hx Hy].
  rewrite (available_actions_unfold n c x y (where_zero_first_configuration _ _ _ _ Hc Hb)).
  eexists. split; [done|].
  unfold blank_in_corner, blank_on_edge, blank_interior, on_border.
  repeat match goal with
  | |- context [bool_decide ?P] => destruct (bool_decide_reflect P)
  end; simpl; lia.
Qed.

Lemma available_actions_length_witness :
  (1 < 3)%nat ∧ is_configuration 3 [[1;2;3];[4;0;6];[7;5;8]]
  ∧ cell [[1;2;3];[4;0;6];[7;5;8]] 1 1 = Some 0
  ∧ ∃ acts,
      available_actions 3 [[1;2;3];[4;0;6];[7;5;8]] = Some acts
      ∧ (blank_in_corner 3 1 1 → length acts = 2%nat)
      ∧ (blank_on_edge 3 1 1 → length acts = 3%nat)
      ∧ (blank_interior 3 1 1 → length acts = 4%nat)
      ∧ (2 ≤ length acts ≤ 4)%nat.
Proof.
  assert (Hc : is_configuration 3 [[1;2;3];[4;0;6];[7;5;8]])
    by (by_compute).
  split; [lia|]. split; [exact Hc|]. split; [reflexivity|].
  apply (available_actions_length 3 _ 1 1); [lia | exact Hc | reflexivity].
Defined.

(** C7. For a grid [c] of dimension [n] held by the array [state] and a
    move [m] of [available_actions(c)], [do_action] returns a new array
    [new_state] in which the cells at the two coordinates of [m] are
    swapped and every other cell is as in [c]; [state] and every other
    array that existed still hold what they held. *)
Theorem do_action_frame n (σ : store) (state : nat) (c : ndarray) acts m :
  σ !! state = Some c → shape n c → available_actions n c = Some acts → m ∈ acts →
  ∃ new_state σ' c',
    do_action_obj σ state m = Some (new_state, σ')
    ∧ σ !! new_state = None
    ∧ σ' !! new_state = Some c'
    ∧ σ' !! state = Some c
    ∧ (∀ k, k ≠ new_state → σ' !! k = σ !! k)
    ∧ do_action c m = Some c'
    ∧ shape n c'
    ∧ getitem c (pos1 m) = Some 0
    ∧ getitem c' (pos1 m) = getitem c (pos2 m)
    ∧ getitem c' (pos2 m) = getitem c (pos1 m)
    ∧ (∀ x y : nat, (Z.of_nat x, Z.of_nat y) ≠ pos1 m → (Z.of_nat x, Z.of_nat y) ≠ pos2 m →
         cell c' x y = cell c x y).
Proof.
  intros Hσ Hs Ha Hm.
  destruct (do_action_available _ _ _ _ Hs Ha Hm)
    as (x1 & y1 & x2 & y2 & v2 & -> & H1 & H2 & Hd).
  set (c' := set_cell (set_cell c x1 y1 v2) x2 y2 0) in *.
  assert (Hfresh : σ !! fresh (dom σ) = None)
    by (apply not_elem_of_dom, is_fresh).
  exists (fresh (dom σ)), (<[fresh (dom σ) := c']> σ), c'.
  split; [by rewrite do_action_obj_refines, Hσ; simpl; rewrite Hd|].
  split; [done|]. split; [by rewrite lookup_insert_eq|].
  split; [rewrite lookup_insert_ne; [done|congruence]|].
  split; [by intros k Hk; rewrite lookup_insert_ne|].
  split; [done|]. split; [by do 2 apply shape_set_cell|]. simpl.
  rewrite !getitem_nat. unfold c'.
  rewrite !(cell_swapped c x1 y1 x2 y2 0 v2) by done. rewrite H1, H2.
  split; [done|]. split.
  { case_decide as Heq; [|by rewrite decide_True].
    destruct Heq as [-> ->]. congruence. }
  split; [by rewrite decide_True|].
  intros x y Hne1 Hne2.
  rewrite !(cell_swapped c x1 y1 x2 y2 0 v2) by done.
  rewrite !decide_False; [done|intros [-> ->]; done..].
Qed.

Lemma do_action_frame_witness :
  let σ : store := {[ 7%nat := [[1;2];[0;3]] ]} in
  σ !! 7%nat = Some [[1;2];[0;3]]
  ∧ shape 2 [[1;2];[0;3]]
  ∧ available_actions 2 [[1;2];[0;3]] = Some [action (1,0) (0,0); action (1,0) (1,1)]
  ∧ ∃ new_state σ',
      do_action_obj σ 7 (action (1,0) (1,1)) = Some (new_state, σ')
      ∧ σ' !! new_state = Some [[1;2];[3;0]]
      ∧ σ' !! 7%nat = Some [[1;2];[0;3]].
Proof.
  intros σ.
  assert (Hs : shape 2 [[1;2];[0;3]]) by (by_compute).
  assert (Hm : action (1,0) (1,1) ∈ [action (1,0) (0,0); action (1,0) (1,1)])
    by (by_compute).
  split; [reflexivity|]. split; [exact Hs|]. split; [reflexivity|].
  destruct (do_action_frame 2 σ 7 _ _ _ eq_refl Hs eq_refl Hm)
    as (new_state & σ' & c' & Hd & _ & Hnew & Hold & _ & Hc' & _).
  exists new_state, σ'. split; [exact Hd|]. split; [|exact Hold].
  rewrite Hnew. f_equal. vm_compute in Hc'. congruence.
Defined.

(** C8. A move of [available_actions(c)] applied to a configuration [c]
    (exactly one zero, the non-zero values a permutation of 1..n²-1) gives
    a configuration again; hence every configuration of a path that
    [solve_puzzle] returns from [c] is one. *)
Theorem do_action_preserves_configuration n (c : ndarray) :
  is_configuration n c →
  (∀ acts m, available_actions n c = Some acts → m ∈ acts →
     ∃ c', do_action c m = Some c' ∧ is_configuration n c')
  ∧ (∀ fuel goal path, solve_puzzle n fuel c goal = Some (Returns (Some path)) →
       Forall (is_configuration n) path).
Proof.
  intros Hc. split.
  - intros acts m Ha Hm.
    destruct (do_action_available _ _ _ _ (proj1 Hc) Ha Hm)
      as (x1 & y1 & x2 & y2 & v2 & -> & H1 & H2 & Hd).
    eexists. split; [done|]. by apply is_configuration_swapped.
  - intros fuel goal path Hsolve.
    destruct (search_loop_path n c goal fuel _ path (initial_state_ok n c) Hsolve)
      as (Hhead & _ & Hlegal).
    by eapply legal_path_configurations.
Qed.

Lemma do_action_preserves_configuration_witness :
  is_configuration 3 [[1;2;3];[4;0;6];[7;5;8]]
  ∧ (∃ c', do_action [[1;2;3];[4;0;6];[7;5;8]] (action (1,1) (1,0)) = Some c'
           ∧ is_configuration 3 c')
  ∧ Forall (is_configuration 3)
      [[[1;2;3];[4;0;6];[7;5;8]]; [[1;2;3];[4;5;6];[7;0;8]]; [[1;2;3];[4;5;6];[7;8;0]]].
Proof.
  assert (Hc : is_configuration 3 [[1;2;3];[4;0;6];[7;5;8]]) by by_compute.
  destruct (do_action_preserves_configuration 3 _ Hc) as [Hmove Hpath].
  split; [exact Hc|]. split.
  - apply (Hmove [action (1,1) (0,1); action (1,1) (2,1); action (1,1) (1,0); action (1,1) (1,2)]);
      [reflexivity | by_compute].
  - apply (Hpath 20%nat [[1;2;3];[4;5;6];[7;8;0]]). vm_compute. reflexivity.
Defined.

(** C9. The frontier starts with the single entry
    [(0, start, [start], 0)], whatever the heuristic of [start], and the
    visited set starts empty. Every entry pushed later comes from the
    expansion of a popped entry [(f, cur, path, g)]: one entry per
    available move, with the child configuration, the path extended by
    it, [g + 1], and [f = (g + 1) + heuristic(child, goal)] (the sum of a
    Python int and a 64-bit scalar, which is the integer sum whenever that
    fits in 64 bits). *)
Theorem solve_puzzle_nodes n (start goal : ndarray) :
  initial_state start = SearchState [(0, start, [start], 0)] ∅
  ∧ (∀ fuel, solve_puzzle n fuel start goal
             = search_loop n goal fuel (SearchState [(0, start, [start], 0)] ∅))
  ∧ (∀ st st', search_step n goal st = Continue st' →
       ∃ f cur path g rest,
         heappop node_lt (frontier st) = Some ((f, cur, path, g), rest)
         ∧ (frontier st' = rest
            ∨ ∃ acts children,
                available_actions n cur = Some acts
                ∧ frontier st' = reverse children ++ rest
                ∧ Forall2 (λ act nd, ∃ child h,
                     do_action cur act = Some child
                     ∧ heuristic n child goal = Some h
                     ∧ nd = (np_add (g + 1) h, child, path ++ [child], g + 1)
                     ∧ (int64 (g + 1 + h) → nd.1.1.1 = g + 1 + h)) acts children)).
Proof.
  split; [done|]. split; [done|].
  intros st st' Hs.
  destruct (search_step_Continue _ _ _ _ Hs)
    as (f & cur & path & g & rest & Hp & _ & [[_ ->]|(_ & acts & fr' & Ha & Hc & ->)]);
    exists f, cur, path, g, rest; (split; [done|]); [by left|right].
  destruct (push_children_spec _ _ _ _ _ _ _ _ Hc) as (children & -> & Hall).
  exists acts, children. split; [done|]. split; [done|].
  eapply list.Forall2_impl; [exact Hall|]. intros act nd (child & h & Hd & Hh & ->).
  exists child, h. split; [done|]. split; [done|]. split; [done|]. simpl.
  intros [Hlo Hhi]. unfold np_add, wrap64.
  rewrite Z.mod_small by lia. lia.
Qed.

(** C10. [solve_puzzle] is deterministic: any two runs on the same
    [(start, goal)] that end give the same result, the same path or [None]
    (or the same exception), and on a grid of dimension [n] every run
    ends. Nothing in the search is random, and two
    different frontier entries are always ordered, by [f], then the
    configuration, then the path, then [g]: the entry popped, and with it
    the whole run, does not depend on how the heap lays its entries out. *)
Theorem solve_puzzle_deterministic n (start goal : ndarray) :
  (∀ fuel1 fuel2 r1 r2,
     solve_puzzle n fuel1 start goal = Some r1 →
     solve_puzzle n fuel2 start goal = Some r2 → r1 = r2)
  ∧ (shape n start →
       ∃ fuel r, ∀ fuel', (fuel ≤ fuel')%nat → solve_puzzle n fuel' start goal = Some r)
  ∧ (∀ a b : node, a ≠ b → node_lt a b = true ∨ node_lt b a = true)
  ∧ (∀ a b : node, node_lt a b = true → node_lt b a = false)
  ∧ (∀ (h h' : list node) a rest,
       h ≡ₚ h' → heappop node_lt h = Some (a, rest) →
       (∀ b, b ∈ h → node_lt b a = false)
       ∧ ∃ rest', heappop node_lt h' = Some (a, rest') ∧ rest ≡ₚ rest')
  ∧ (∀ fuel1 fuel2 st1 st2 r1 r2,
       same_entries st1 st2 →
       search_loop n goal fuel1 st1 = Some r1 →
       search_loop n goal fuel2 st2 = Some r2 → r1 = r2).
Proof.
  assert (Hloop : ∀ fuel1 fuel2 st1 st2 r1 r2,
       same_entries st1 st2 →
       search_loop n goal fuel1 st1 = Some r1 →
       search_loop n goal fuel2 st2 = Some r2 → r1 = r2).
  { intros fuel1 fuel2 st1 st2 r1 r2 Hst H1 H2.
    apply (search_loop_more_fuel _ _ _ (fuel1 `max` fuel2)%nat) in H1; [|lia].
    apply (search_loop_more_fuel _ _ _ (fuel1 `max` fuel2)%nat) in H2; [|lia].
    rewrite (search_loop_same_entries _ _ _ _ _ Hst) in H1. congruence. }
  split; [|split; [|split; [|split; [|split]]]].
  - intros fuel1 fuel2 r1 r2. by apply Hloop.
  - intros Hs. destruct (solve_puzzle_ends n start goal Hs) as (fuel & r & Hrun & _).
    by exists fuel, r.
  - apply (lt_total (lt := node_lt)).
  - apply (lt_asym node_lt).
  - intros h h' a rest Hp Hpop. split.
    + intros b Hb. unfold heappop in Hpop.
      destruct (heap_min node_lt h) as [m|] eqn:Hm; simplify_eq/=.
      exact (heap_min_least node_lt h a b Hm Hb).
    + exact (heappop_perm_proper node_lt h h' a rest Hp Hpop).
  - done.
Qed.

(** ** Runs *)

(** The one-move scenario of the specification. *)
Example run_one_move :
  solve_puzzle 2 10 [[1;2];[0;3]] [[1;2];[3;0]]
  = Some (Returns (Some [[[1;2];[0;3]]; [[1;2];[3;0]]])).
Proof. vm_compute. reflexivity. Qed.

(** The 3×3 scenario of the specification. *)
Example run_classic :
  solve_puzzle 3 20 [[1;2;3];[4;0;6];[7;5;8]] [[1;2;3];[4;5;6];[7;8;0]]
  = Some (Returns (Some [[[1;2;3];[4;0;6];[7;5;8]];
                         [[1;2;3];[4;5;6];[7;0;8]];
                         [[1;2;3];[4;5;6];[7;8;0]]])).
Proof. vm_compute. reflexivity. Qed.

(** A goal that cannot be reached: the frontier empties. *)
Example run_exhausted :
  solve_puzzle 2 40 [[2;1];[3;0]] [[1;2];[3;0]] = Some (Returns None).
Proof. vm_compute. reflexivity. Qed.

(** The start entry has [f = 0] also where the heuristic of the start
    configuration is not 0. *)
Example start_entry_not_heuristic :
  frontier (initial_state [[1;2;3];[4;0;6];[7;5;8]])
  = [(0, [[1;2;3];[4;0;6];[7;5;8]], [[[1;2;3];[4;0;6];[7;5;8]]], 0)]
  ∧ heuristic 3 [[1;2;3];[4;0;6];[7;5;8]] [[1;2;3];[4;5;6];[7;8;0]] = Some 6.
Proof. split; vm_compute; reflexivity. Qed.

(** An array without rows: [np.where] finds no zero. *)
Example run_empty_array n : solve_puzzle n 1 [] [] = Some Raises.
Proof. reflexivity. Qed.

(** * Further properties of the code *)

(** ** Moves on any array *)

Lemma axis_index_is_Some n i : is_Some (axis_index n i) ↔ index_ok n i.
Proof.
  unfold axis_index, index_ok.
  repeat case_bool_decide; split; intros H'; try lia; try done; by destruct H'.
Qed.

Lemma axis_index_lt n i k : axis_index n i = Some k → (k < n)%nat.
Proof.
  unfold axis_index. repeat case_bool_decide; intros ?; simplify_eq; lia.
Qed.

Lemma getitem_locate (a : ndarray) p :
  getitem a p = locate a p ≫= λ '(i, j), cell a i j.
Proof.
  unfold getitem, locate, cell.
  destruct (axis_index (length a) p.1) as [i|]; [|done]. simpl.
  destruct (a !! i) as [row|] eqn:Hrow; [|done]. simpl.
  destruct (axis_index (length row) p.2) as [j|]; [|done]. simpl.
  by rewrite Hrow.
Qed.

Lemma locate_cell (a : ndarray) p i j :
  locate a p = Some (i, j) → is_Some (cell a i j).
Proof.
  unfold locate, cell. intros H.
  destruct (axis_index (length a) p.1) as [i'|]; simplify_eq/=.
  destruct (a !! i') as [row|] eqn:Hrow; simplify_eq/=.
  destruct (axis_index (length row) p.2) as [j'|] eqn:Hj; simplify_eq/=.
  rewrite Hrow. simpl. apply lookup_lt_is_Some_2. by eapply axis_index_lt.
Qed.

Lemma setitem_locate (a : ndarray) p v :
  setitem a p v = locate a p ≫= λ '(i, j), Some (set_cell a i j v).
Proof.
  unfold setitem, locate, set_cell.
  destruct (axis_index (length a) p.1) as [i|]; [|done]. simpl.
  destruct (a !! i) as [row|] eqn:Hrow; [|done]. simpl.
  destruct (axis_index (length row) p.2) as [j|]; [|done]. simpl.
  f_equal. apply list_eq. intros k. destruct (decide (k = i)) as [->|Hne].
  - rewrite list_lookup_alter_eq, Hrow. simpl.
    by rewrite list_lookup_insert_eq by (by eapply lookup_lt_Some).
  - by rewrite list_lookup_alter_ne, list_lookup_insert_ne.
Qed.

Lemma locate_set_cell (a : ndarray) x y v p :
  locate (set_cell a x y v) p = locate a p.
Proof.
  unfold locate. rewrite length_set_cell.
  destruct (axis_index (length a) p.1) as [i|]; [|done]. simpl.
  pose proof (set_cell_row_lengths a x y v i) as Hl.
  destruct (set_cell a x y v !! i) as [row'|], (a !! i) as [row|]; simplify_eq/=; [|done].
  by rewrite Hl.
Qed.

(** [do_action] through the cells that the two index pairs address. *)
Lemma do_action_locate (a : ndarray) m :
  do_action a m =
  '(i2, j2) ← locate a (pos2 m);
  '(i1, j1) ← locate a (pos1 m);
  v2 ← cell a i2 j2; v1 ← cell a i1 j1;
  Some (set_cell (set_cell a i1 j1 v2) i2 j2 v1).
Proof.
  unfold do_action. rewrite !getitem_locate.
  destruct (locate a (pos2 m)) as [[i2 j2]|] eqn:H2; [|done]. simpl.
  destruct (locate_cell _ _ _ _ H2) as [v2 Hv2]. rewrite Hv2. simpl.
  destruct (locate a (pos1 m)) as [[i1 j1]|] eqn:H1; [|done]. simpl.
  destruct (locate_cell _ _ _ _ H1) as [v1 Hv1]. rewrite Hv1. simpl.
  rewrite setitem_locate, H1. simpl.
  by rewrite setitem_locate, locate_set_cell, H2.
Qed.

Lemma do_action_Some_locate (a b : ndarray) m :
  do_action a m = Some b →
  ∃ i1 j1 i2 j2 v1 v2,
    locate a (pos1 m) = Some (i1, j1) ∧ locate a (pos2 m) = Some (i2, j2)
    ∧ cell a i1 j1 = Some v1 ∧ cell a i2 j2 = Some v2
    ∧ b = set_cell (set_cell a i1 j1 v2) i2 j2 v1.
Proof.
  rewrite do_action_locate. intros H.
  destruct (locate a (pos2 m)) as [[i2 j2]|]; simplify_eq/=.
  destruct (locate a (pos1 m)) as [[i1 j1]|]; simplify_eq/=.
  destruct (cell a i2 j2) as [v2|] eqn:H2; simplify_eq/=.
  destruct (cell a i1 j1) as [v1|] eqn:H1; simplify_eq/=.
  exists i1, j1, i2, j2, v1, v2. eauto 10.
Qed.

Lemma locate_nat (a : ndarray) i j :
  is_Some (cell a i j) → locate a (Z.of_nat i, Z.of_nat j) = Some (i, j).
Proof.
  unfold cell, locate. simpl. intros [v Hv].
  destruct (a !! i) as [row|] eqn:Hrow; simplify_eq/=.
  rewrite axis_index_nat by (by eapply lookup_lt_Some). simpl. rewrite Hrow. simpl.
  by rewrite axis_index_nat by (by eapply lookup_lt_Some).
Qed.

Lemma do_action_twice (a b : ndarray) m :
  do_action a m = Some b → do_action b m = Some a.
Proof.
  intros H.
  destruct (do_action_Some_locate _ _ _ H)
    as (i1 & j1 & i2 & j2 & v1 & v2 & L1 & L2 & H1 & H2 & ->).
  pose proof (do_action_twice_nat a i1 j1 i2 j2 v1 v2 H1 H2) as Hback.
  rewrite do_action_locate in Hback |- *. simpl in Hback.
  rewrite !locate_set_cell, L1, L2. simpl.
  rewrite !locate_set_cell in Hback.
  rewrite !locate_nat in Hback by (by eexists). exact Hback.
Qed.

Lemma locate_is_Some r c (a : ndarray) p :
  rect r c a → is_Some (locate a p) ↔ index_ok r p.1 ∧ index_ok c p.2.
Proof.
  intros [Hlen Hrows]. unfold locate. rewrite <- !axis_index_is_Some, Hlen.
  destruct (axis_index r p.1) as [i|] eqn:Hi; simpl.
  - destruct (lookup_lt_is_Some_2 a i) as [row Hrow];
      [rewrite Hlen; by eapply axis_index_lt|].
    rewrite Hrow. simpl. rewrite (Forall_lookup_1 _ _ _ _ Hrows Hrow).
    destruct (axis_index c p.2); simpl; split; intros H; try done.
    + by destruct H as [_ [? ?]].
  - split; intros H; [by destruct H|]. by destruct H as [[? ?] _].
Qed.

Lemma rect_set_cell r c (a : ndarray) x y v : rect r c a → rect r c (set_cell a x y v).
Proof.
  intros [Hl Hr]. split; [by rewrite length_set_cell|].
  apply Forall_lookup. intros i row Hi.
  pose proof (set_cell_row_lengths a x y v i) as Hlen. rewrite Hi in Hlen.
  destruct (a !! i) as [row'|] eqn:Hrow; simplify_eq/=.
  rewrite Hlen. by eapply (Forall_lookup_1 _ _ _ _ Hr).
Qed.

Lemma cell_mjoin_rect r c (a : ndarray) x y v :
  rect r c a → cell a x y = Some v → (y < c)%nat ∧ mjoin a !! (x * c + y)%nat = Some v.
Proof.
  intros [_ Hr] Hc. unfold cell in Hc.
  destruct (a !! x) as [row|] eqn:Hrow; simplify_eq/=.
  assert (y < c)%nat as Hy.
  { rewrite <- (Forall_lookup_1 _ _ _ _ Hr Hrow). by eapply lookup_lt_Some. }
  split; [done|]. apply (join_lookup_Some_same_length' c a x y v Hr Hy). eauto.
Qed.

Lemma mjoin_swapped_rect r c (a : ndarray) x1 y1 x2 y2 v1 v2 :
  rect r c a → cell a x1 y1 = Some v1 → cell a x2 y2 = Some v2 →
  mjoin (set_cell (set_cell a x1 y1 v2) x2 y2 v1) ≡ₚ mjoin a.
Proof.
  intros Hs H1 H2.
  destruct (cell_mjoin_rect _ _ _ _ _ _ Hs H1) as [Hy1 Hm1].
  destruct (cell_mjoin_rect _ _ _ _ _ _ Hs H2) as [Hy2 Hm2].
  rewrite (mjoin_set_cell c) by (done || by apply (rect_set_cell r c)).
  rewrite (mjoin_set_cell c) by (done || by apply Hs).
  by apply insert_swap_perm.
Qed.

(** X1. On an array of [r] rows and [c] columns, [do_action] raises exactly
    when one of the four indices of the move is outside [-r .. r-1]
    (rows) or [-c .. c-1] (columns). *)
Theorem do_action_index_error r c (a : ndarray) m :
  rect r c a →
  is_Some (do_action a m)
  ↔ index_ok r (pos1 m).1 ∧ index_ok c (pos1 m).2
    ∧ index_ok r (pos2 m).1 ∧ index_ok c (pos2 m).2.
Proof.
  intros Hr.
  pose proof (locate_is_Some r c a (pos1 m) Hr) as E1.
  pose proof (locate_is_Some r c a (pos2 m) Hr) as E2.
  transitivity (is_Some (locate a (pos1 m)) ∧ is_Some (locate a (pos2 m))); [|tauto].
  clear E1 E2. rewrite do_action_locate.
  destruct (locate a (pos2 m)) as [[i2 j2]|] eqn:L2; simpl;
    [|split; [by intros []|by intros [_ []]]].
  destruct (locate a (pos1 m)) as [[i1 j1]|] eqn:L1; simpl;
    [|split; [by intros []|by intros [[] _]]].
  destruct (locate_cell _ _ _ _ L1) as [v1 ->].
  destruct (locate_cell _ _ _ _ L2) as [v2 ->]. simpl.
  split; intros _; [split|]; by eexists.
Qed.

Lemma do_action_index_error_witness :
  rect 2 2 [[1;2];[3;0]]
  ∧ (is_Some (do_action [[1;2];[3;0]] (action (1,1) (-1,2)))
     ↔ index_ok 2 1 ∧ index_ok 2 1 ∧ index_ok 2 (-1) ∧ index_ok 2 2).
Proof.
  assert (Hr : rect 2 2 [[1;2];[3;0]]) by by_compute.
  split; [exact Hr|].
  exact (do_action_index_error 2 2 _ (action (1,1) (-1,2)) Hr).
Defined.

(** X2. Whatever the move, the array that [do_action] returns has the
    shape of its argument and holds the same values, each as often. *)
Theorem do_action_permutes r c (a b : ndarray) m :
  rect r c a → do_action a m = Some b → rect r c b ∧ mjoin b ≡ₚ mjoin a.
Proof.
  intros Hr H.
  destruct (do_action_Some_locate _ _ _ H)
    as (i1 & j1 & i2 & j2 & v1 & v2 & L1 & L2 & H1 & H2 & ->).
  split; [by do 2 apply rect_set_cell|]. by eapply mjoin_swapped_rect.
Qed.

Lemma do_action_permutes_witness :
  rect 2 3 [[1;2;3];[4;5;6]]
  ∧ do_action [[1;2;3];[4;5;6]] (action (0,0) (-1,-1)) = Some [[6;2;3];[4;5;1]]
  ∧ rect 2 3 [[6;2;3];[4;5;1]]
  ∧ mjoin [[6;2;3];[4;5;1]] ≡ₚ mjoin [[1;2;3];[4;5;6]].
Proof.
  assert (Hr : rect 2 3 [[1;2;3];[4;5;6]]) by by_compute.
  split; [exact Hr|]. split; [reflexivity|].
  exact (do_action_permutes 2 3 _ _ (action (0,0) (-1,-1)) Hr eq_refl).
Defined.

(** ** available_actions *)

Lemma where_zero_first_None (a : ndarray) :
  where_zero_first a = None ↔ 0 ∉ mjoin a.
Proof.
  split.
  - intros Hn Hin. apply list_elem_of_join in Hin as (row & Hin & Hrow).
    apply list_elem_of_lookup in Hrow as [x Hx].
    apply list_elem_of_lookup in Hin as [y Hy].
    destruct (where_zero_first_is_Some a x y) as [p Hp]; [|congruence].
    unfold cell. by rewrite Hx.
  - intros Hn. destruct (where_zero_first a) as [p|] eqn:Hp; [|done].
    destruct (where_zero_first_Some _ _ Hp) as (x & y & -> & Hc).
    exfalso. apply Hn. unfold cell in Hc.
    destruct (a !! x) as [row|] eqn:Hrow; simplify_eq/=.
    apply list_elem_of_join. exists row.
    split; by eapply list_elem_of_lookup_2.
Qed.

(** X3. [available_actions] raises exactly on an array without a zero. *)
Theorem available_actions_no_blank n (a : ndarray) :
  available_actions n a = None ↔ 0 ∉ mjoin a.
Proof.
  rewrite <- where_zero_first_None. unfold available_actions.
  destruct (where_zero_first a) as [[x y]|]; simpl; split; intros; done.
Qed.

(** X4. On a grid of dimension [n] the moves of [available_actions] are,
    without repetition, exactly the moves from the first zero of the grid
    to an orthogonal neighbour inside the board. *)
Theorem available_actions_neighbours n (a : ndarray) acts :
  shape n a → available_actions n a = Some acts →
  ∃ x y : nat,
    where_zero_first a = Some (Z.of_nat x, Z.of_nat y)
    ∧ cell a x y = Some 0
    ∧ NoDup acts
    ∧ ∀ m, m ∈ acts
        ↔ pos1 m = (Z.of_nat x, Z.of_nat y)
          ∧ 0 ≤ (pos2 m).1 < Z.of_nat n ∧ 0 ≤ (pos2 m).2 < Z.of_nat n
          ∧ Z.abs ((pos2 m).1 - Z.of_nat x) + Z.abs ((pos2 m).2 - Z.of_nat y) = 1.
Proof.
  intros Hs Ha.
  destruct (where_zero_first a) as [p|] eqn:Hw;
    [|by unfold available_actions in Ha; rewrite Hw in Ha].
  destruct (where_zero_first_Some _ _ Hw) as (x & y & -> & Hc).
  destruct (cell_shape_lt _ _ _ _ _ Hs Hc) as [Hx Hy].
  exists x, y. split; [done|]. split; [done|].
  unfold available_actions in Ha. rewrite Hw in Ha. simpl in Ha. simplify_eq.
  split.
  - repeat case_bool_decide; simpl; repeat constructor;
      rewrite ?not_elem_of_cons, ?elem_of_nil; intuition (simplify_eq; lia).
  - intros m.
    repeat case_bool_decide; simpl; rewrite ?elem_of_cons, ?elem_of_nil;
      (split;
       [ intros H'; repeat (destruct H' as [H'|H']); try done; subst m; simpl; (split; [done|lia])
       | intros (Hp1 & Hb1 & Hb2 & Hd); destruct m as [p1 [mx2 my2]];
         simpl in *; subst p1;
         assert (mx2 = Z.of_nat x - 1 ∧ my2 = Z.of_nat y
                 ∨ mx2 = Z.of_nat x + 1 ∧ my2 = Z.of_nat y
                 ∨ mx2 = Z.of_nat x ∧ my2 = Z.of_nat y - 1
                 ∨ mx2 = Z.of_nat x ∧ my2 = Z.of_nat y + 1) as Hcase by lia;
         destruct Hcase as [[-> ->]|[[-> ->]|[[-> ->]|[-> ->]]]]; try lia; auto 10 ]).
Qed.

Lemma available_actions_neighbours_witness :
  let a := [[1;2;3];[4;0;6];[7;5;8]] in
  let acts := [action (1,1) (0,1); action (1,1) (2,1);
               action (1,1) (1,0); action (1,1) (1,2)] in
  shape 3 a
  ∧ available_actions 3 a = Some acts
  ∧ ∃ x y : nat,
      where_zero_first a = Some (Z.of_nat x, Z.of_nat y)
      ∧ cell a x y = Some 0
      ∧ NoDup acts
      ∧ ∀ m, m ∈ acts
          ↔ pos1 m = (Z.of_nat x, Z.of_nat y)
            ∧ 0 ≤ (pos2 m).1 < Z.of_nat 3 ∧ 0 ≤ (pos2 m).2 < Z.of_nat 3
            ∧ Z.abs ((pos2 m).1 - Z.of_nat x) + Z.abs ((pos2 m).2 - Z.of_nat y) = 1.
Proof.
  intros a acts.
  assert (Hs : shape 3 a) by by_compute.
  split; [exact Hs|]. split; [reflexivity|].
  exact (available_actions_neighbours 3 a acts Hs eq_refl).
Defined.

Lemma do_action_swap_positions (a : ndarray) p q :
  do_action a (action p q) = do_action a (action q p).
Proof.
  rewrite !do_action_locate. simpl.
  destruct (locate a q) as [[i2 j2]|] eqn:L2, (locate a p) as [[i1 j1]|] eqn:L1;
    simpl; try done.
  destruct (locate_cell _ _ _ _ L1) as [v1 H1].
  destruct (locate_cell _ _ _ _ L2) as [v2 H2]. rewrite H1, H2. simpl.
  f_equal. apply grid_ext.
  - by rewrite !length_set_cell.
  - intros x. by rewrite !set_cell_row_lengths.
  - intros x y. rewrite !cell_set_cell, H1, H2. simpl.
    repeat case_decide; destruct_and?; simplify_eq; try done; congruence.
Qed.

Lemma move_back n (a b : ndarray) acts m :
  is_configuration n a → available_actions n a = Some acts → m ∈ acts →
  do_action a m = Some b →
  ∃ acts',
    available_actions n b = Some acts'
    ∧ action (pos2 m) (pos1 m) ∈ acts'
    ∧ do_action b (action (pos2 m) (pos1 m)) = Some a.
Proof.
  intros Hc Ha Hm Hd.
  destruct (available_actions_elem _ _ _ _ (proj1 Hc) Ha Hm)
    as (x & y & x' & y' & -> & Hblank & Hx' & Hy' & Hadj).
  destruct (cell_shape_lt _ _ _ _ _ (proj1 Hc) Hblank) as [Hx Hy].
  destruct (shape_cell _ _ _ _ (proj1 Hc) Hx' Hy') as [v2 H2].
  pose proof (do_action_nat a x y x' y' 0 v2 Hblank H2) as Hd'.
  rewrite Hd' in Hd. simplify_eq.
  pose proof (is_configuration_swapped n a x y x' y' 0 v2 Hc Hblank H2) as Hc'.
  assert (cell (set_cell (set_cell a x y v2) x' y' 0) x' y' = Some 0) as Hblank'.
  { rewrite (cell_swapped a x y x' y' 0 v2) by done. by rewrite decide_True. }
  pose proof (where_zero_first_configuration _ _ _ _ Hc' Hblank') as Hw.
  eexists. split; [by apply available_actions_unfold|]. simpl. split.
  - rewrite !elem_of_app.
    destruct Hadj as [[-> [ <- | -> ]]|[-> [ <- | -> ]]].
    + right; left. rewrite bool_decide_eq_true_2 by lia.
      replace (x' + 1)%nat with (S x') by lia. left.
    + left. rewrite bool_decide_eq_true_2 by lia.
      replace (S x - 1)%nat with x by lia. left.
    + do 3 right. rewrite bool_decide_eq_true_2 by lia.
      replace (y' + 1)%nat with (S y') by lia. left.
    + right; right; left. rewrite bool_decide_eq_true_2 by lia.
      replace (S y - 1)%nat with y by lia. left.
  - rewrite do_action_swap_positions. apply do_action_twice. by rewrite Hd'.
Qed.

Lemma one_move_sym n (a b : ndarray) :
  is_configuration n a → one_move n a b → one_move n b a.
Proof.
  intros Hc (acts & m & Ha & Hm & Hd).
  destruct (move_back n a b acts m Hc Ha Hm Hd) as (acts' & Ha' & Hm' & Hd').
  by exists acts', (action (pos2 m) (pos1 m)).
Qed.

(** X5. [do_action] swaps: the two positions of an action can be
    exchanged without changing the result, and whatever the move, applying
    it again to the result gives the array back. *)
Theorem do_action_exchange (a : ndarray) (p q : Z * Z) :
  do_action a (action p q) = do_action a (action q p)
  ∧ ∀ b, do_action a (action p q) = Some b →
      do_action b (action p q) = Some a ∧ do_action b (action q p) = Some a.
Proof.
  split; [apply do_action_swap_positions|].
  intros b Hd. pose proof (do_action_twice a b _ Hd) as Hback.
  split; [done|]. by rewrite <- do_action_swap_positions.
Qed.

(** X6. After a move on a configuration the move back is available: the
    result is a configuration, the move with the two positions exchanged
    is among its moves, and it leads back. *)
Theorem move_back_available n (a b : ndarray) acts m :
  is_configuration n a → available_actions n a = Some acts → m ∈ acts →
  do_action a m = Some b →
  is_configuration n b
  ∧ ∃ acts',
      available_actions n b = Some acts'
      ∧ action (pos2 m) (pos1 m) ∈ acts'
      ∧ do_action b (action (pos2 m) (pos1 m)) = Some a.
Proof.
  intros Hc Ha Hm Hd. split.
  - eapply is_configuration_do_action; [done|]. by exists acts, m.
  - by eapply move_back.
Qed.

Lemma move_back_available_witness :
  let a := [[1;2];[0;3]] in
  let b := [[1;2];[3;0]] in
  let acts := [action (1,0) (0,0); action (1,0) (1,1)] in
  is_configuration 2 a
  ∧ available_actions 2 a = Some acts
  ∧ action (1,0) (1,1) ∈ acts
  ∧ do_action a (action (1,0) (1,1)) = Some b
  ∧ is_configuration 2 b
  ∧ ∃ acts',
      available_actions 2 b = Some acts'
      ∧ action (1,1) (1,0) ∈ acts'
      ∧ do_action b (action (1,1) (1,0)) = Some a.
Proof.
  intros a b acts.
  assert (Hc : is_configuration 2 a) by by_compute.
  assert (Hm : action (1,0) (1,1) ∈ acts) by by_compute.
  split; [exact Hc|]. split; [reflexivity|]. split; [exact Hm|].
  split; [reflexivity|].
  exact (move_back_available 2 a b acts (action (1,0) (1,1)) Hc eq_refl Hm eq_refl).
Defined.

(** ** The goal array and the heuristic at the goal *)

Lemma chunks_shape c r l :
  length l = (r * c)%nat → rect r c (chunks c r l) ∧ mjoin (chunks c r l) = l.
Proof.
  revert l. induction r as [|r IH]; intros l Hl; simpl in *.
  - split; [by split|]. by destruct l.
  - destruct (IH (drop c l)) as [[Hlen Hrows] Hjoin]; [rewrite length_drop; lia|].
    split; [split|].
    + simpl. by rewrite Hlen.
    + constructor; [|done]. rewrite length_take. lia.
    + rewrite Hjoin. apply take_drop.
Qed.

Lemma cell_chunks c r l x y :
  length l = (r * c)%nat → (y < c)%nat →
  cell (chunks c r l) x y = l !! (x * c + y)%nat.
Proof.
  intros Hl Hy. destruct (chunks_shape c r l Hl) as [[Hlen Hrows] Hjoin].
  destruct (l !! (x * c + y)%nat) as [v|] eqn:Hv.
  - rewrite <- Hjoin in Hv.
    apply (join_lookup_Some_same_length' c _ x y v Hrows Hy) in Hv as (row & Hrow & Hv).
    unfold cell. by rewrite Hrow.
  - destruct (cell (chunks c r l) x y) as [v|] eqn:Hc; [|done].
    destruct (cell_mjoin_rect r c _ x y v (conj Hlen Hrows) Hc) as [_ Hm].
    rewrite Hjoin in Hm. congruence.
Qed.

Lemma goal_list_length n :
  (0 < n)%nat →
  length (seqZ 1 (Z.of_nat n * Z.of_nat n - 1) ++ [0]) = (n * n)%nat.
Proof. intros Hn. rewrite length_app, length_seqZ. simpl. nia. Qed.

Lemma goal_list_lookup n (i : nat) :
  (i < n * n)%nat →
  (seqZ 1 (Z.of_nat n * Z.of_nat n - 1) ++ [0]) !! i
  = Some (if decide (i = n * n - 1)%nat then 0 else Z.of_nat i + 1).
Proof.
  intros Hi. case_decide as Hlast.
  - rewrite lookup_app_r by (rewrite length_seqZ; nia).
    rewrite length_seqZ. replace (i - _)%nat with 0%nat by nia. done.
  - rewrite lookup_app_l by (rewrite length_seqZ; nia).
    rewrite lookup_seqZ_lt by nia. f_equal. lia.
Qed.

Lemma goal_array_cells n :
  (0 < n)%nat →
  ∃ g, goal_array n = Some g ∧ shape n g ∧ mjoin g = seqZ 1 (Z.of_nat n * Z.of_nat n - 1) ++ [0]
       ∧ ∀ x y, (x < n)%nat → (y < n)%nat → cell g x y = Some (goal_value n x y).
Proof.
  intros Hn. pose proof (goal_list_length n Hn) as Hl.
  unfold goal_array, reshape. rewrite decide_True by done.
  destruct (chunks_shape n n _ Hl) as [Hrect Hjoin].
  eexists. split; [done|]. split; [done|]. split; [done|].
  intros x y Hx Hy. rewrite (cell_chunks n n) by done.
  rewrite goal_list_lookup; [done|]. nia.
Qed.

Lemma filter_Forall_id {A} (P : A → Prop) `{∀ x, Decision (P x)} (l : list A) :
  Forall P l → filter P l = l.
Proof.
  induction 1 as [|a l Ha _ IH]; [done|]. by rewrite filter_cons_True, IH.
Qed.

Lemma filter_Forall_nil {A} (P : A → Prop) `{∀ x, Decision (P x)} (l : list A) :
  Forall (λ x, ¬ P x) l → filter P l = [].
Proof.
  induction 1 as [|a l Ha _ IH]; [done|]. by rewrite filter_cons_False.
Qed.

Lemma seqZ_positive m k : 0 < m → Forall (λ v, v ≠ 0) (seqZ m k).
Proof.
  intros Hm. apply list.Forall_forall. intros v Hv. apply elem_of_seqZ in Hv. lia.
Qed.

Lemma goal_array_is_configuration n :
  (0 < n)%nat → ∃ g, goal_array n = Some g ∧ is_configuration n g.
Proof.
  intros Hn. destruct (goal_array_cells n Hn) as (g & Hg & Hs & Hjoin & Hcells).
  exists g. split; [done|].
  - split; [done|]. rewrite Hjoin, !list.filter_app.
    rewrite (filter_Forall_nil (λ v, v = 0) (seqZ _ _))
      by (by apply seqZ_positive).
    rewrite (filter_Forall_id (λ v, v ≠ 0) (seqZ _ _)) by (by apply seqZ_positive).
    change (filter (λ v : Z, v = 0) [0]) with [0].
    change (filter (λ v : Z, v ≠ 0) [0]) with (@nil Z).
    by rewrite app_nil_r.
Qed.

Lemma goal_array_zero : goal_array 0 = None.
Proof. done. Qed.

Lemma goal_positions_Some n v row col :
  goal_positions n !! v = Some (row, col) →
  1 ≤ v < Z.of_nat n * Z.of_nat n
  ∧ row = (v - 1) `div` Z.of_nat n ∧ col = (v - 1) `mod` Z.of_nat n
  ∧ 0 ≤ row < Z.of_nat n ∧ 0 ≤ col < Z.of_nat n
  ∧ row * Z.of_nat n + col + 1 = v.
Proof.
  intros Hsome.
  assert (1 ≤ v < Z.of_nat n * Z.of_nat n) as Hv.
  { destruct (decide (1 ≤ v < Z.of_nat n * Z.of_nat n)) as [|Hv]; [done|].
    exfalso. unfold goal_positions in Hsome.
    apply elem_of_list_to_map_2, list_elem_of_fmap in Hsome as (w & ? & Hw).
    simplify_eq. apply elem_of_seqZ in Hw. lia. }
  rewrite goal_positions_lookup in Hsome by done. unfold np_divmod in Hsome.
  simplify_eq. split; [done|].
  assert (0 < Z.of_nat n) by nia.
  assert (0 ≤ (v - 1) `div` Z.of_nat n < Z.of_nat n).
  { split; [apply Z.div_pos; lia|]. apply Z.div_lt_upper_bound; lia. }
  pose proof (Z.mod_pos_bound (v - 1) (Z.of_nat n) ltac:(lia)).
  pose proof (Z.div_mod (v - 1) (Z.of_nat n) ltac:(lia)).
  repeat split; try done; try lia; try nia.
Qed.

(** X7. [goal_positions] has exactly the tiles [1 .. n²-1] as keys (0 and
    every other value are missing); the entry of tile [v] is a position
    [(row, col)] inside the board from which the tile is read back as
    [row * n + col + 1]. *)
Theorem goal_positions_table n v :
  (is_Some (goal_positions n !! v) ↔ 1 ≤ v < Z.of_nat n * Z.of_nat n)
  ∧ ∀ row col, goal_positions n !! v = Some (row, col) →
      row = (v - 1) `div` Z.of_nat n ∧ col = (v - 1) `mod` Z.of_nat n
      ∧ 0 ≤ row < Z.of_nat n ∧ 0 ≤ col < Z.of_nat n
      ∧ row * Z.of_nat n + col + 1 = v.
Proof.
  split.
  - split.
    + intros [[row col] Hsome]. by destruct (goal_positions_Some n v row col Hsome).
    + intros Hv. rewrite goal_positions_lookup by done. by eexists.
  - intros row col Hsome.
    by destruct (goal_positions_Some n v row col Hsome) as (_ & ?).
Qed.

(** X8. For [PUZZLE_DIM >= 1] the goal array of the notebook is built
    without error and is a configuration: its cell at row [x], column [y]
    is [x * n + y + 1], and 0 in the last cell, so that every tile sits
    at its entry of [goal_positions]. For [PUZZLE_DIM = 0] [reshape]
    raises. *)
Theorem goal_array_configuration n :
  (n = 0%nat → goal_array n = None)
  ∧ ((0 < n)%nat →
     ∃ g, goal_array n = Some g ∧ is_configuration n g
          ∧ (∀ x y, (x < n)%nat → (y < n)%nat →
               cell g x y = Some (if decide (x = n - 1 ∧ y = n - 1)%nat then 0
                                  else Z.of_nat x * Z.of_nat n + Z.of_nat y + 1))
          ∧ ∀ v row col, goal_positions n !! v = Some (row, col) →
               getitem g (row, col) = Some v).
Proof.
  split; [by intros ->|]. intros Hn.
  destruct (goal_array_cells n Hn) as (g & Hg & Hs & Hjoin & Hcells).
  destruct (goal_array_is_configuration n Hn) as (g' & Hg' & Hc).
  rewrite Hg in Hg'. simplify_eq.
  exists g'. split; [done|]. split; [done|]. split.
  - intros x y Hx Hy. rewrite Hcells by done. f_equal. unfold goal_value.
    repeat case_decide; try done; try nia.
  - intros v row col Hpos.
    destruct (goal_positions_Some n v row col Hpos) as (Hv & _ & _ & Hrow & Hcol & Hback).
    rewrite <- (Z2Nat.id row), <- (Z2Nat.id col) by lia.
    rewrite getitem_nat, Hcells by lia. f_equal. unfold goal_value.
    case_decide; nia.
Qed.

Lemma heuristic_as_formula n (c g : ndarray) :
  shape n c → shape n g → cells_in_range n c → Z.of_nat n ≤ 2 ^ 20 →
  heuristic n c g = Some (heuristic_formula n c g)
  ∧ 0 ≤ manhattan_term n c ∧ 0 ≤ misplacement_term c g.
Proof.
  intros Hc Hg Hrange Hn.
  assert (Z.of_nat n * Z.of_nat n ≤ 2 ^ 40) as Hn2 by nia.
  assert (Z.of_nat n * Z.of_nat n * Z.of_nat n ≤ 2 ^ 60) as Hn3 by nia.
  destruct (heuristic_rows_spec n c g c 0 0 0 Hn) as (Hrun & Hd & Hm).
  { intros i row Hi. simpl. split; [done|].
    split; [by eapply (Forall_lookup_1 _ _ _ _ (proj2 Hc))|].
    split; [rewrite <- (proj1 Hc); by eapply lookup_lt_Some|].
    split; [by eapply (Forall_lookup_1 _ _ _ _ Hrange)|].
    intros y Hy. eapply shape_cell; [done| |done].
    rewrite <- (proj1 Hc). by eapply lookup_lt_Some. }
  { done. }
  { rewrite (proj1 Hc). lia. }
  rewrite (proj1 Hc) in Hrun, Hd, Hm. rewrite !Z.add_0_l in Hrun.
  unfold heuristic. rewrite Hrun. simpl.
  unfold heuristic_formula, manhattan_term, misplacement_term.
  rewrite sumZ_filter, length_filter_sumZ. change (cells c) with (rows_cells 0 c).
  change (λ x, if decide (non_blank x) then tile_distance n x else 0)
    with (cell_distance n).
  change (λ x, if decide (misplaced g x) then 1 else 0) with (cell_misplaced g).
  unfold np_add. rewrite wrap64_id by (unfold int64; lia).
  split; [done|lia].
Qed.

Lemma elem_of_cells (a : ndarray) x y v :
  (x, y, v) ∈ cells a ↔ cell a x y = Some v.
Proof.
  unfold cells, cell. rewrite list_elem_of_join. split.
  - intros (l & Hin & Hl). apply elem_of_lookup_imap in Hl as (x' & row & -> & Hrow).
    apply elem_of_lookup_imap in Hin as (y' & v' & ? & Hv). simplify_eq.
    by rewrite Hrow.
  - intros Hc. destruct (a !! x) as [row|] eqn:Hrow; simplify_eq/=.
    exists (imap (λ y v, (x, y, v)) row). split.
    + apply elem_of_lookup_imap. eauto.
    + apply elem_of_lookup_imap. eauto.
Qed.

Lemma sumZ_zero (l : list Z) : Forall (λ z, z = 0) l → sumZ l = 0.
Proof. induction 1 as [|z l -> _ IH]; [done|]. by rewrite sumZ_cons, IH. Qed.

(** X9. On configurations the heuristic is 0 at the goal array of the
    notebook and nowhere else. *)
Theorem heuristic_zero_iff_goal n (c g : ndarray) :
  is_configuration n c → goal_array n = Some g → Z.of_nat n ≤ 2 ^ 20 →
  heuristic n c g = Some 0 ↔ c = g.
Proof.
  intros Hc Hg Hn.
  assert (0 < n)%nat as Hpos.
  { destruct n; [|lia]. by rewrite goal_array_zero in Hg. }
  destruct (goal_array_cells n Hpos) as (g' & Hg' & Hsg & _ & Hcells).
  rewrite Hg in Hg'. simplify_eq.
  destruct (heuristic_as_formula n c g' (proj1 Hc) Hsg
              (is_configuration_cells_in_range _ _ Hc) Hn) as (Hh & Hman & Hmis).
  rewrite Hh. unfold heuristic_formula. split.
  - intros Hzero. assert (misplacement_term c g' = 0) as Hm0 by (simplify_eq; lia).
    unfold misplacement_term in Hm0.
    assert (filter (misplaced g') (cells c) = []) as Hnil
      by (apply length_zero_iff_nil; lia).
    assert (Hsame : ∀ x y v, cell c x y = Some v → v ≠ 0 → cell g' x y = Some v).
    { intros x y v Hv Hne. destruct (decide (cell g' x y = Some v)) as [|Hdiff]; [done|].
      assert ((x, y, v) ∈ filter (misplaced g') (cells c)) as Hin.
      { apply list_elem_of_filter. split; [by split|]. by apply elem_of_cells. }
      rewrite Hnil in Hin. by apply elem_of_nil in Hin. }
    assert (Hlast : cell c (n - 1) (n - 1) = Some 0).
    { destruct (shape_cell n c (n - 1) (n - 1) (proj1 Hc)) as [w Hw]; [lia..|].
      destruct (decide (w = 0)) as [->|Hw0]; [done|].
      pose proof (Hsame _ _ _ Hw Hw0) as Hgw.
      rewrite Hcells in Hgw by lia. unfold goal_value in Hgw.
      rewrite decide_True in Hgw by nia. congruence. }
    apply grid_ext.
    + by rewrite (proj1 (proj1 Hc)), (proj1 Hsg).
    + intros x. destruct (c !! x) as [row|] eqn:Hrow, (g' !! x) as [row'|] eqn:Hrow';
        simpl; try done.
      * by rewrite (Forall_lookup_1 _ _ _ _ (proj2 (proj1 Hc)) Hrow),
          (Forall_lookup_1 _ _ _ _ (proj2 Hsg) Hrow').
      * apply lookup_lt_Some in Hrow. apply lookup_ge_None in Hrow'.
        rewrite (proj1 (proj1 Hc)) in Hrow. rewrite (proj1 Hsg) in Hrow'. lia.
      * apply lookup_lt_Some in Hrow'. apply lookup_ge_None in Hrow.
        rewrite (proj1 (proj1 Hc)) in Hrow. rewrite (proj1 Hsg) in Hrow'. lia.
    + intros x y. destruct (cell c x y) as [v|] eqn:Hv.
      * destruct (decide (v = 0)) as [->|Hv0]; [|symmetry; by apply Hsame].
        destruct (blank_unique n c x y (n - 1) (n - 1) (proj1 Hc) (proj1 (proj2 Hc))
                    Hv Hlast) as [-> ->].
        rewrite Hcells by lia. unfold goal_value. rewrite decide_True by nia. done.
      * destruct (cell g' x y) as [w|] eqn:Hw; [|done].
        destruct (cell_shape_lt _ _ _ _ _ Hsg Hw) as [Hx Hy].
        destruct (shape_cell n c x y (proj1 Hc) Hx Hy) as [? ?]. congruence.
  - intros ->. f_equal.
    assert (manhattan_term n g' = 0) as ->.
    { unfold manhattan_term. apply sumZ_zero. apply Forall_fmap.
      apply list.Forall_forall. intros [[x y] v] Hin.
      apply list_elem_of_filter in Hin as [Hnb Hin]. apply elem_of_cells in Hin.
      unfold non_blank in Hnb. simpl in *.
      destruct (cell_shape_lt _ _ _ _ _ Hsg Hin) as [Hx Hy].
      rewrite Hcells in Hin by done. unfold goal_value in Hin.
      case_decide; simplify_eq; try done.
      replace (Z.of_nat (x * n + y) + 1 - 1) with (Z.of_nat x * Z.of_nat n + Z.of_nat y) by lia.
      rewrite <- (Z.div_unique _ (Z.of_nat n) (Z.of_nat x) (Z.of_nat y)) by lia.
      rewrite <- (Z.mod_unique _ (Z.of_nat n) (Z.of_nat x) (Z.of_nat y)) by lia.
      lia. }
    assert (misplacement_term g' g' = 0) as ->; [|done].
    unfold misplacement_term. rewrite filter_Forall_nil; [done|].
    apply list.Forall_forall. intros [[x y] v] Hin [_ Hne]. apply Hne.
    by apply elem_of_cells.
Qed.

Lemma heuristic_zero_iff_goal_witness :
  let c := [[1;2;3];[4;5;6];[7;0;8]] in
  let g := [[1;2;3];[4;5;6];[7;8;0]] in
  is_configuration 3 c
  ∧ goal_array 3 = Some g
  ∧ Z.of_nat 3 ≤ 2 ^ 20
  ∧ (heuristic 3 c g = Some 0 ↔ c = g).
Proof.
  intros c g.
  assert (Hc : is_configuration 3 c) by by_compute.
  assert (Hn : Z.of_nat 3 ≤ 2 ^ 20) by (vm_compute; discriminate).
  split; [exact Hc|]. split; [reflexivity|]. split; [exact Hn|].
  exact (heuristic_zero_iff_goal 3 c g Hc eq_refl Hn).
Defined.

(** ** Fingerprints *)

Lemma int64_bytes_length v : length (int64_bytes v) = 8%nat.
Proof. done. Qed.

Lemma int64_bytes_value v : bytes_value (int64_bytes v) = v `mod` 2 ^ 64.
Proof.
  pose proof (Z.mod_pos_bound v (2 ^ 64) ltac:(lia)) as Hu.
  set (u := v `mod` 2 ^ 64) in *. unfold int64_bytes.
  change (seq 0 8) with [0; 1; 2; 3; 4; 5; 6; 7]%nat.
  cbn [fmap list_fmap bytes_value foldr]. fold u.
  change 255 with (Z.ones 8).
  rewrite !Z.land_ones, !Z.shiftr_div_pow2 by lia.
  change (8 * Z.of_nat 0) with 0. change (8 * Z.of_nat 1) with 8.
  change (8 * Z.of_nat 2) with 16. change (8 * Z.of_nat 3) with 24.
  change (8 * Z.of_nat 4) with 32. change (8 * Z.of_nat 5) with 40.
  change (8 * Z.of_nat 6) with 48. change (8 * Z.of_nat 7) with 56.
  change (2 ^ 0) with 1. rewrite Z.div_1_r.
  replace (u / 2 ^ 56) with (u / 2 ^ 48 / 2 ^ 8) by (by rewrite Z.div_div by lia).
  replace (u / 2 ^ 48) with (u / 2 ^ 40 / 2 ^ 8) by (by rewrite Z.div_div by lia).
  replace (u / 2 ^ 40) with (u / 2 ^ 32 / 2 ^ 8) by (by rewrite Z.div_div by lia).
  replace (u / 2 ^ 32) with (u / 2 ^ 24 / 2 ^ 8) by (by rewrite Z.div_div by lia).
  replace (u / 2 ^ 24) with (u / 2 ^ 16 / 2 ^ 8) by (by rewrite Z.div_div by lia).
  replace (u / 2 ^ 16) with (u / 2 ^ 8 / 2 ^ 8) by (by rewrite Z.div_div by lia).
  assert (u / 2 ^ 8 / 2 ^ 8 / 2 ^ 8 / 2 ^ 8 / 2 ^ 8 / 2 ^ 8 / 2 ^ 8 / 2 ^ 8 = 0) as Htop.
  { rewrite !Z.div_div by lia. apply Z.div_small.
    change (2 ^ 8) with 256. change (2 ^ 64) with 18446744073709551616 in Hu. lia. }
  change (2 ^ 8) with 256 in *. rewrite !(Z.mod_eq _ 256) by lia.
  rewrite Htop. ring.
Qed.

Lemma int64_bytes_inj v w :
  int64 v → int64 w → int64_bytes v = int64_bytes w → v = w.
Proof.
  intros [Hv1 Hv2] [Hw1 Hw2] Heq.
  apply (f_equal bytes_value) in Heq. rewrite !int64_bytes_value in Heq.
  change (2 ^ 63) with 9223372036854775808 in *.
  change (2 ^ 64) with 18446744073709551616 in *.
  Z.div_mod_to_equations. lia.
Qed.

Lemma bind_int64_bytes_inj (l l' : list Z) :
  Forall int64 l → Forall int64 l' →
  l ≫= int64_bytes = l' ≫= int64_bytes → l = l'.
Proof.
  intros Hl. revert l'. induction Hl as [|v l Hv _ IH]; intros l' Hl' Heq.
  - destruct l' as [|w l']; [done|]. by apply (f_equal length) in Heq.
  - destruct Hl' as [|w l' Hw Hl']; [by apply (f_equal length) in Heq|].
    change ((v :: l) ≫= int64_bytes) with (int64_bytes v ++ (l ≫= int64_bytes)) in Heq.
    change ((w :: l') ≫= int64_bytes) with (int64_bytes w ++ (l' ≫= int64_bytes)) in Heq.
    apply app_inj_1 in Heq as [Hhead Htail]; [|done].
    f_equal; [by apply int64_bytes_inj|by apply IH].
Qed.

Lemma mjoin_inj_rect r c (a b : ndarray) :
  rect r c a → rect r c b → mjoin a = mjoin b → a = b.
Proof.
  intros Ha Hb Heq.
  assert (Hcell : ∀ (a b : ndarray) x y v, rect r c a → rect r c b → mjoin a = mjoin b →
            cell a x y = Some v → cell b x y = Some v).
  { clear. intros a b x y v Ha Hb Heq Hc.
    destruct (cell_mjoin_rect _ _ _ _ _ _ Ha Hc) as [Hy Hm]. rewrite Heq in Hm.
    apply (join_lookup_Some_same_length' c b x y v (proj2 Hb) Hy) in Hm as (row & Hrow & Hv).
    unfold cell. by rewrite Hrow. }
  apply grid_ext.
  - by rewrite (proj1 Ha), (proj1 Hb).
  - intros x. destruct (a !! x) as [row|] eqn:Hrow, (b !! x) as [row'|] eqn:Hrow';
      simpl; try done.
    + by rewrite (Forall_lookup_1 _ _ _ _ (proj2 Ha) Hrow),
        (Forall_lookup_1 _ _ _ _ (proj2 Hb) Hrow').
    + apply lookup_lt_Some in Hrow. apply lookup_ge_None in Hrow'.
      rewrite (proj1 Ha) in Hrow. rewrite (proj1 Hb) in Hrow'. lia.
    + apply lookup_lt_Some in Hrow'. apply lookup_ge_None in Hrow.
      rewrite (proj1 Ha) in Hrow. rewrite (proj1 Hb) in Hrow'. lia.
  - intros x y. destruct (cell a x y) as [v|] eqn:Hv.
    + symmetry. by eapply (Hcell a b).
    + destruct (cell b x y) as [w|] eqn:Hw; [|done].
      rewrite (Hcell b a x y w) in Hv; done.
Qed.

Lemma tobytes_inj r c (a b : ndarray) :
  rect r c a → rect r c b → Forall int64 (mjoin a) → Forall int64 (mjoin b) →
  tobytes a = tobytes b → a = b.
Proof.
  intros Ha Hb Hia Hib Heq. rewrite !tobytes_mjoin in Heq.
  apply (mjoin_inj_rect r c); [done..|]. by apply bind_int64_bytes_inj.
Qed.

(** X10. The fingerprint [tobytes()] has eight bytes for every cell and
    does not hold the shape: an array and the single row of its cells
    have the same one. On arrays of one shape it tells the arrays apart:
    two 64-bit arrays of [r] rows and [c] columns with the same
    fingerprint are equal. *)
Theorem tobytes_fingerprints r c (a b : ndarray) :
  rect r c a → rect r c b → Forall int64 (mjoin a) → Forall int64 (mjoin b) →
  (tobytes a = tobytes b ↔ a = b)
  ∧ length (tobytes a) = (8 * (r * c))%nat
  ∧ tobytes a = tobytes [mjoin a].
Proof.
  intros Ha Hb Hia Hib. split; [|split].
  - split; [by apply (tobytes_inj r c)|by intros ->].
  - rewrite tobytes_mjoin.
    assert (length (mjoin a) = (r * c)%nat) as <-.
    { destruct Ha as [<- Hrows]. clear -Hrows.
      induction Hrows as [|row a Hrow _ IH]; [done|]. simpl.
      rewrite length_app, IH, Hrow. done. }
    generalize (mjoin a). intros l. induction l as [|v l IH]; [done|].
    change ((v :: l) ≫= int64_bytes) with (int64_bytes v ++ (l ≫= int64_bytes)).
    rewrite length_app, IH, int64_bytes_length. simpl. lia.
  - rewrite !tobytes_mjoin. simpl. by rewrite app_nil_r.
Qed.

Lemma tobytes_fingerprints_witness :
  let a := [[1;-1]] in
  let b := [[1;255]] in
  rect 1 2 a ∧ rect 1 2 b
  ∧ Forall int64 (mjoin a) ∧ Forall int64 (mjoin b)
  ∧ (tobytes a = tobytes b ↔ a = b)
  ∧ length (tobytes a) = (8 * (1 * 2))%nat
  ∧ tobytes a = tobytes [mjoin a].
Proof.
  intros a b.
  assert (Ha : rect 1 2 a) by by_compute.
  assert (Hb : rect 1 2 b) by by_compute.
  assert (Hia : Forall int64 (mjoin a)) by by_compute.
  assert (Hib : Forall int64 (mjoin b)) by by_compute.
  split; [exact Ha|]. split; [exact Hb|]. split; [exact Hia|]. split; [exact Hib|].
  exact (tobytes_fingerprints 1 2 a b Ha Hb Hia Hib).
Defined.

(** ** Simple paths and completeness *)

Lemma entry_simple_mono (goal : ndarray) (V V' : gset (list Z)) (nd : node) :
  V ⊆ V' → entry_simple goal V nd → entry_simple goal V' nd.
Proof.
  intros HV (pre & Hpath & Hnd & Hpre). exists pre. split; [done|]. split; [done|].
  intros s Hs. destruct (Hpre s Hs). split; [|done]. by apply HV.
Qed.

Lemma search_step_simple n (goal : ndarray) st st' :
  Forall (entry_simple goal (visited st)) (frontier st) →
  search_step n goal st = Continue st' →
  Forall (entry_simple goal (visited st')) (frontier st').
Proof.
  intros Hinv Hstep.
  destruct (search_step_Continue _ _ _ _ Hstep)
    as (f & cur & path & g & rest & Hp & Hne & Hcases).
  apply heappop_perm in Hp. rewrite Hp in Hinv.
  apply Forall_cons_1 in Hinv as [(pre & Hpath & Hnd & Hpre) Hrest]. simpl in Hpath.
  subst path.
  destruct Hcases as [[_ ->]|(Hnew & acts & fr' & Ha & Hc & ->)]; simpl; [done|].
  destruct (push_children_spec _ _ _ _ _ _ _ _ Hc) as (children & -> & Hall).
  assert (cur ≠ goal) as Hcur.
  { intros ->. destruct goal as [|row goal]; [done|]. simpl in Hne.
    by rewrite bool_decide_eq_true_2 in Hne. }
  apply Forall_app. split.
  - apply Forall_reverse, Forall_lookup. intros i nd Hi.
    destruct (Forall2_lookup_r _ _ _ _ _ Hall Hi)
      as (act & Hact & child & h & Hd & _ & ->).
    exists (pre ++ [cur]). simpl. split; [done|]. split.
    + apply list.NoDup_app. split; [done|]. split; [|apply NoDup_singleton].
      intros s Hs Hin. apply list_elem_of_singleton in Hin as ->.
      by destruct (Hpre cur Hs).
    + intros s Hs. apply elem_of_app in Hs as [Hs|Hs].
      * destruct (Hpre s Hs). split; [|done]. apply elem_of_union. by right.
      * apply list_elem_of_singleton in Hs as ->. split; [|done].
        apply elem_of_union. left. by apply elem_of_singleton.
  - eapply list.Forall_impl; [done|]. intros nd. apply entry_simple_mono.
    apply union_subseteq_r.
Qed.

Lemma search_loop_simple n (goal : ndarray) fuel st path :
  Forall (entry_simple goal (visited st)) (frontier st) →
  search_loop n goal fuel st = Some (Returns (Some path)) →
  NoDup path ∧ ∀ i s, path !! i = Some s → s = goal → S i = length path.
Proof.
  revert st. induction fuel as [|fuel IH]; intros st Hinv Hl; [done|]. simpl in Hl.
  destruct (search_step n goal st) as [r|st'] eqn:Hstep.
  - simplify_eq.
    destruct (search_step_Stop_path _ _ _ _ Hstep) as (f & cur & g & rest & Hp & -> & _).
    apply heappop_perm in Hp. rewrite Hp in Hinv.
    apply Forall_cons_1 in Hinv as [(pre & Hpath & Hnd & Hpre) _]. simpl in Hpath.
    subst path. split.
    + apply list.NoDup_app. split; [done|]. split; [|apply NoDup_singleton].
      intros s Hs Hin. apply list_elem_of_singleton in Hin as ->.
      by destruct (Hpre goal Hs).
    + intros i s Hi ->. rewrite length_app. simpl.
      destruct (decide (i < length pre)%nat) as [Hlt|Hge].
      * rewrite lookup_app_l in Hi by done.
        apply list_elem_of_lookup_2 in Hi. by destruct (Hpre goal Hi).
      * apply lookup_lt_Some in Hi. rewrite length_app in Hi. simpl in Hi. lia.
  - eapply IH; [|done]. by eapply search_step_simple.
Qed.

Lemma initial_state_simple (start goal : ndarray) :
  Forall (entry_simple goal (visited (initial_state start))) (frontier (initial_state start)).
Proof.
  apply Forall_singleton. exists []. split; [done|]. split; [constructor|].
  intros s Hs. by apply elem_of_nil in Hs.
Qed.

(** X11. A path that [solve_puzzle] returns never holds a configuration
    twice, and the goal is its last configuration only. *)
Theorem solve_puzzle_path_simple n fuel (start goal : ndarray) path :
  solve_puzzle n fuel start goal = Some (Returns (Some path)) →
  NoDup path ∧ ∀ i s, path !! i = Some s → s = goal → S i = length path.
Proof.
  intros Hsolve.
  destruct (search_loop_simple n goal fuel (initial_state start) path
              (initial_state_simple start goal) Hsolve) as [Hnodup Hlast].
  split; [done|]. intros i s Hi Hs. by eapply Hlast.
Qed.

Lemma solve_puzzle_path_simple_witness :
  let start := [[0;1];[3;2]] in
  let goal := [[1;2];[3;0]] in
  let path := [start; [[1;0];[3;2]]; goal] in
  solve_puzzle 2 10 start goal = Some (Returns (Some path))
  ∧ NoDup path
  ∧ ∀ i s, path !! i = Some s → s = goal → S i = length path.
Proof.
  intros start goal path.
  assert (Hrun : solve_puzzle 2 10 start goal = Some (Returns (Some path)))
    by (vm_compute; reflexivity).
  split; [exact Hrun|]. exact (solve_puzzle_path_simple 2 10 start goal path Hrun).
Defined.

Lemma one_move_reachable n (start a b : ndarray) :
  shape n a → mjoin a ≡ₚ mjoin start → one_move n a b →
  shape n b ∧ mjoin b ≡ₚ mjoin start.
Proof.
  intros Hs Hp (acts & m & Ha & Hm & Hd).
  destruct (do_action_available n a acts m Hs Ha Hm)
    as (x1 & y1 & x2 & y2 & v2 & -> & H1 & H2 & Hd').
  rewrite Hd' in Hd. simplify_eq. split; [by do 2 apply shape_set_cell|].
  by rewrite (mjoin_swapped n).
Qed.

Lemma legal_path_reachable n (start s0 : ndarray) p :
  shape n s0 → mjoin s0 ≡ₚ mjoin start → head p = Some s0 → legal_path n p →
  ∀ s, s ∈ p → shape n s ∧ mjoin s ≡ₚ mjoin start.
Proof.
  intros Hs Hp Hh Hl s Hin. apply list_elem_of_lookup in Hin as [i Hi].
  revert s Hi. induction i as [|i IH]; intros s Hi.
  - rewrite <- head_lookup, Hh in Hi. by simplify_eq.
  - destruct (lookup_lt_is_Some_2 p i) as [b Hb]; [apply lookup_lt_Some in Hi; lia|].
    destruct (IH b Hb) as [Hsb Hpb].
    eapply one_move_reachable; [done..|]. by eapply Hl.
Qed.

Lemma legal_path_suffix n (p1 p2 : list ndarray) :
  legal_path n (p1 ++ p2) → legal_path n p2.
Proof.
  intros Hl i a b Ha Hb. apply (Hl (length p1 + i)%nat).
  - by rewrite lookup_app_r, Nat.add_comm, Nat.add_sub by lia.
  - replace (S (length p1 + i)) with (length p1 + S i)%nat by lia.
    by rewrite lookup_app_r, Nat.add_comm, Nat.add_sub by lia.
Qed.

Lemma array_equal_list_false (cur goal : ndarray) :
  cur ≠ [] → array_equal_list cur goal = false → cur ≠ goal.
Proof.
  intros Hne Hf ->. destruct goal; [done|]. simpl in Hf.
  by rewrite bool_decide_eq_true_2 in Hf.
Qed.

Lemma reachable_int64 (start s : ndarray) :
  Forall int64 (mjoin start) → mjoin s ≡ₚ mjoin start → Forall int64 (mjoin s).
Proof. intros Hi Hp. by rewrite Hp. Qed.

Lemma search_step_goal_ahead n (start goal : ndarray) st :
  Forall int64 (mjoin start) → 0 ∈ mjoin start →
  Forall (entry_reachable n start) (frontier st) →
  goal_ahead n goal st →
  (∃ path, search_step n goal st = Stop (Returns (Some path)))
  ∨ ∃ st', search_step n goal st = Continue st' ∧ goal_ahead n goal st'.
Proof.
  intros Hint Hzero Hinv (nd & p & Hnd & Hhead & Hlast & Hlegal & Hfresh).
  assert (Hnd_reach : entry_reachable n start nd)
    by (by eapply (proj1 (list.Forall_forall _ _) Hinv)).
  pose proof (legal_path_reachable n start _ p (proj1 Hnd_reach) (proj2 Hnd_reach)
                Hhead Hlegal) as Hp_reach.
  assert (Hgoal : shape n goal) by (by apply Hp_reach, last_Some_elem_of).
  destruct (search_step n goal st) as [[[path|]|]|st'] eqn:Hstep.
  - left. by exists path.
  - apply search_step_Stop_None in Hstep. rewrite Hstep in Hnd.
    by apply elem_of_nil in Hnd.
  - by destruct (search_step_no_exception n start goal st Hgoal Hzero Hinv).
  - right. exists st'. split; [done|].
    destruct (search_step_Continue _ _ _ _ Hstep)
      as (f & cur & path & g & rest & Hpop & Hne & Hcases).
    apply heappop_perm in Hpop. rewrite Hpop in Hinv, Hnd.
    apply Forall_cons_1 in Hinv as [[Hcur_shape Hcur_perm] Hrest].
    simpl in Hcur_shape, Hcur_perm.
    assert (head p = Some nd.1.1.2 → nd.1.1.2 ∈ p) as Hhead_in.
    { destruct p; intros ?; simplify_eq/=. left. }
    destruct Hcases as [[Hseen ->]|(Hnew & acts & fr' & Ha & Hc & ->)].
    + apply elem_of_cons in Hnd as [->|Hnd].
      * by destruct (Hfresh cur (Hhead_in Hhead)).
      * by exists nd, p.
    + destruct (push_children_spec _ _ _ _ _ _ _ _ Hc) as (children & -> & Hall).
      assert (Hother : ∀ s, s ∈ p → s ≠ cur →
                tobytes s ∉ {[tobytes cur]} ∪ visited st).
      { intros s Hs Hdiff. apply not_elem_of_union. split; [|by apply Hfresh].
        intros Heq%elem_of_singleton. apply Hdiff.
        destruct (Hp_reach s Hs) as [Hss Hsp].
        apply (tobytes_inj n n); try done; by eapply reachable_int64. }
      destruct (decide (cur ∈ p)) as [Hin|Hout].
      * apply list_elem_of_split_r in Hin as (p1 & p2 & -> & Hlast_occ).
        rewrite last_app_cons in Hlast.
        destruct p2 as [|s' p2].
        { simpl in Hlast. simplify_eq.
          exfalso. eapply (array_equal_list_false goal goal); [|done|done].
          intros ->. rewrite <- Hcur_perm in Hzero. by apply elem_of_nil in Hzero. }
        assert (one_move n cur s') as (acts' & m & Ha' & Hm & Hd).
        { apply (Hlegal (length p1)).
          - by rewrite list_lookup_middle.
          - rewrite (cons_middle cur), app_assoc.
            rewrite list_lookup_middle; [done|]. rewrite length_app. simpl. lia. }
        rewrite Ha in Ha'. simplify_eq.
        apply list_elem_of_lookup in Hm as [i Hi].
        destruct (Forall2_lookup_l _ _ _ _ _ Hall Hi)
          as (nd' & Hnd' & child & h & Hd' & _ & ->).
        rewrite Hd in Hd'. simplify_eq.
        exists (np_add (g + 1) h, child, path ++ [child], g + 1), (child :: p2).
        split; [|split; [done|split; [|split]]].
        -- simpl. apply elem_of_app. left. apply elem_of_reverse.
           by eapply list_elem_of_lookup_2.
        -- by rewrite last_cons_cons in Hlast.
        -- apply (legal_path_suffix n (p1 ++ [cur])). by rewrite <- app_assoc.
        -- intros s Hs. simpl. apply Hother.
           ++ apply elem_of_app. right. by right.
           ++ intros ->. done.
      * exists nd, p. split; [|split; [done|split; [done|split; [done|]]]].
        -- apply elem_of_cons in Hnd as [->|Hnd]; [by destruct Hout; apply Hhead_in|].
           simpl. apply elem_of_app. by right.
        -- intros s Hs. apply Hother; [done|]. by intros ->.
Qed.

Lemma search_loop_goal_ahead n (start goal : ndarray) fuel st r :
  Forall int64 (mjoin start) → 0 ∈ mjoin start →
  Forall (entry_reachable n start) (frontier st) →
  goal_ahead n goal st →
  search_loop n goal fuel st = Some r → ∃ path, r = Returns (Some path).
Proof.
  intros Hint Hzero. revert st.
  induction fuel as [|fuel IH]; intros st Hinv Hahead Hl; [done|]. simpl in Hl.
  destruct (search_step_goal_ahead n start goal st Hint Hzero Hinv Hahead)
    as [[path Hstop]|(st' & Hcont & Hahead')].
  - rewrite Hstop in Hl. simplify_eq. by exists path.
  - rewrite Hcont in Hl. eapply IH; [|done|done].
    by eapply search_step_potential.
Qed.

Lemma initial_goal_ahead n (start goal : ndarray) :
  reachable n start goal → goal_ahead n goal (initial_state start).
Proof.
  intros (p & Hhead & Hlast & Hlegal). exists (0, start, [start], 0), p.
  split; [left|]. split; [done|]. split; [done|]. split; [done|].
  intros s _. simpl. apply not_elem_of_empty.
Qed.

Lemma solve_puzzle_finds n (start goal : ndarray) :
  shape n start → shape n goal → Forall int64 (mjoin start) → 0 ∈ mjoin start →
  reachable n start goal →
  ∃ fuel path, ∀ fuel', (fuel ≤ fuel')%nat →
    solve_puzzle n fuel' start goal = Some (Returns (Some path)).
Proof.
  intros Hs Hg Hint Hzero Hreach.
  destruct (solve_puzzle_ends n start goal Hs) as (fuel & r & Hrun & Hexc).
  destruct (search_loop_goal_ahead n start goal fuel (initial_state start) r
              Hint Hzero (initial_state_reachable n start Hs)
              (initial_goal_ahead n start goal Hreach) (Hrun fuel (le_n _)))
    as [path ->].
  by exists fuel, path.
Qed.



(** ** The driver cell *)

Lemma choice_elem {A} (r : nat) (seq : list A) :
  seq ≠ [] → ∃ x, choice r seq = Some x ∧ x ∈ seq.
Proof.
  intros Hne. unfold choice.
  rewrite decide_False by (by destruct seq).
  destruct (lookup_lt_is_Some_2 seq (r `mod` length seq)%nat) as [x Hx].
  { apply Nat.mod_upper_bound. by destruct seq. }
  exists x. split; [done|]. by eapply list_elem_of_lookup_2.
Qed.

Lemma configuration_blank n (c : ndarray) : is_configuration n c → 0 ∈ mjoin c.
Proof.
  intros (_ & Hone & _).
  destruct (filter (λ v, v = 0) (mjoin c)) as [|z l] eqn:Hf; [done|].
  assert (z ∈ filter (λ v, v = 0) (mjoin c)) as Hz by (rewrite Hf; left).
  by apply list_elem_of_filter in Hz as [-> ?].
Qed.

Lemma configuration_blank_cell n (a : ndarray) :
  is_configuration n a →
  ∃ x y : nat, (x < n)%nat ∧ (y < n)%nat ∧ cell a x y = Some 0
               ∧ where_zero_first a = Some (Z.of_nat x, Z.of_nat y).
Proof.
  intros Hc. pose proof (configuration_blank n a Hc) as Hzero.
  destruct (where_zero_first a) as [p|] eqn:Hw;
    [|by apply where_zero_first_None in Hw].
  destruct (where_zero_first_Some _ _ Hw) as (x & y & -> & Hb).
  destruct (cell_shape_lt _ _ _ _ _ (proj1 Hc) Hb) as [Hx Hy].
  by exists x, y.
Qed.

Lemma available_actions_nonempty n (a : ndarray) :
  (1 < n)%nat → is_configuration n a →
  ∃ acts, available_actions n a = Some acts ∧ acts ≠ [].
Proof.
  intros Hn Hc.
  destruct (configuration_blank_cell n a Hc) as (x & y & Hx & Hy & _ & Hw).
  rewrite (available_actions_unfold n a x y Hw). eexists. split; [done|].
  destruct (decide (x = 0)%nat) as [->|Hx0].
  - rewrite (bool_decide_eq_false_2 (0 < 0)%nat) by lia.
    by rewrite (bool_decide_eq_true_2 (1 < n)%nat) by lia.
  - by rewrite (bool_decide_eq_true_2 (0 < x)%nat) by lia.
Qed.

Lemma available_actions_single (a : ndarray) :
  is_configuration 1 a → available_actions 1 a = Some [].
Proof.
  intros Hc.
  destruct (configuration_blank_cell 1 a Hc) as (x & y & Hx & Hy & _ & Hw).
  rewrite (available_actions_unfold 1 a x y Hw).
  by rewrite !bool_decide_eq_false_2 by lia.
Qed.

Lemma reachable_step_back n (a b c : ndarray) :
  reachable n c b → one_move n b a → reachable n c a.
Proof.
  intros (p & Hhead & Hlast & Hlegal) Hmove. exists (p ++ [a]).
  split; [by destruct p|]. split; [by rewrite last_snoc|].
  by eapply legal_path_snoc.
Qed.

Lemma randomize_path n draws (c : ndarray) :
  (1 < n)%nat → is_configuration n c →
  ∃ c' p, randomize n draws c = Some c' ∧ is_configuration n c'
          ∧ head p = Some c' ∧ list.last p = Some c ∧ legal_path n p
          ∧ length p = S (length draws).
Proof.
  intros Hn. revert c. induction draws as [|r draws IH]; intros c Hc.
  - exists c, [c]. split; [done|]. split; [done|]. split; [done|].
    split; [done|]. split; [|done]. intros [|i] a b Ha Hb; simplify_eq/=.
  - destruct (available_actions_nonempty n c Hn Hc) as (acts & Ha & Hne).
    destruct (choice_elem r acts Hne) as (act & Hch & Hact).
    destruct (do_action_available n c acts act (proj1 Hc) Ha Hact)
      as (x1 & y1 & x2 & y2 & v2 & Hm & H1 & H2 & Hd).
    pose proof (is_configuration_swapped n c x1 y1 x2 y2 0 v2 Hc H1 H2) as Hc'.
    destruct (IH _ Hc') as (c' & p & Hrun & Hconf & Hhead & Hlast & Hlegal & Hlen).
    exists c', (p ++ [c]). simpl. rewrite Ha. simpl. rewrite Hch. simpl.
    rewrite Hd. simpl.
    split; [done|]. split; [done|]. split; [by destruct p|].
    split; [by rewrite last_snoc|]. split.
    + eapply legal_path_snoc; [done..|].
      apply (one_move_sym n c); [done|]. by exists acts, act.
    + rewrite length_app. simpl. lia.
Qed.

(** X13. The randomizing loop of the notebook. On a board of dimension at
    least 2 it never raises and ends, whatever is drawn, in a
    configuration from which the configuration it started in is reached
    by one available move per draw. On the board of dimension 1 there is
    no move, and the first [choice] raises. *)
Theorem randomize_solvable n draws (c : ndarray) :
  is_configuration n c →
  ((1 < n)%nat →
   ∃ c' p, randomize n draws c = Some c' ∧ is_configuration n c'
           ∧ head p = Some c' ∧ list.last p = Some c ∧ legal_path n p
           ∧ length p = S (length draws))
  ∧ (n = 1%nat → draws ≠ [] → randomize n draws c = None).
Proof.
  intros Hc. split.
  - intros Hn. by apply randomize_path.
  - intros -> Hne. destruct draws as [|r draws]; [done|]. simpl.
    by rewrite (available_actions_single c Hc).
Qed.

Lemma randomize_solvable_witness :
  let c := [[1;2];[3;0]] in
  let draws := [0; 1; 5]%nat in
  is_configuration 2 c
  ∧ ((1 < 2)%nat →
     ∃ c' p, randomize 2 draws c = Some c' ∧ is_configuration 2 c'
             ∧ head p = Some c' ∧ list.last p = Some c ∧ legal_path 2 p
             ∧ length p = S (length draws))
  ∧ ((2 = 1)%nat → draws ≠ [] → randomize 2 draws c = None).
Proof.
  intros c draws.
  assert (Hc : is_configuration 2 c) by by_compute.
  split; [exact Hc|]. exact (randomize_solvable 2 draws c Hc).
Defined.

Lemma configuration_int64 n (c : ndarray) :
  is_configuration n c → Z.of_nat n * Z.of_nat n ≤ 2 ^ 63 → Forall int64 (mjoin c).
Proof.
  intros Hc Hn. pose proof (is_configuration_cells_in_range n c Hc) as Hr.
  apply list.Forall_forall. intros v Hv.
  apply list_elem_of_join in Hv as (row & Hv & Hrow).
  pose proof (proj1 (list.Forall_forall _ _) Hr row Hrow) as Hrow'.
  pose proof (proj1 (list.Forall_forall _ _) Hrow' v Hv) as Hv'. simpl in Hv'.
  unfold int64. lia.
Qed.

(** X14. The last cell of the notebook always reports a solution. For
    [PUZZLE_DIM <= 1] it prints a solution in 0 moves without searching.
    For a larger [PUZZLE_DIM], whatever the random source draws, the
    randomizing loop raises nothing and ends in a configuration, the
    search ends, and the cell prints the moves and the steps of a path
    from that configuration to the goal: it prints neither
    "No solution found." nor raises. *)
Theorem main_reports_solution n (rnd : nat → nat) :
  ((n ≤ 1)%nat → ∀ fuel,
     main n fuel rnd
     = Some (Prints [SolutionFound 0; StepHeader 0;
                     PrintGrid (if decide (n = 0%nat) then [] else [[0]])]))
  ∧ ((1 < n)%nat → Z.of_nat n * Z.of_nat n ≤ 2 ^ 63 →
     ∃ fuel start goal path,
       goal_array n = Some goal
       ∧ randomize n (rnd <$> seq 0 RANDOMIZE_STEPS) goal = Some start
       ∧ is_configuration n start
       ∧ (∀ fuel', (fuel ≤ fuel')%nat →
            main n fuel' rnd = Some (Prints (print_solution path)))
       ∧ head path = Some start ∧ list.last path = Some goal
       ∧ legal_path n path ∧ NoDup path).
Proof.
  split.
  - intros Hn fuel. destruct n as [|[|n]]; [done|done|lia].
  - intros Hn Hbound.
    destruct (goal_array_is_configuration n ltac:(lia)) as (goal & Hgoal & Hc).
    destruct (randomize_path n (rnd <$> seq 0 RANDOMIZE_STEPS) goal Hn Hc)
      as (start & p & Hrand & Hcs & Hhead & Hlast & Hlegal & _).
    destruct (solve_puzzle_finds n start goal (proj1 Hcs) (proj1 Hc)
                (configuration_int64 n start Hcs Hbound) (configuration_blank n start Hcs))
      as (fuel & path & Hrun).
    { by exists p. }
    pose proof (search_loop_path n start goal fuel _ path (initial_state_ok n start)
                  (Hrun fuel (le_n _))) as (Hhead' & Hlast' & Hlegal').
    destruct (search_loop_simple n goal fuel (initial_state start) path
                (initial_state_simple start goal) (Hrun fuel (le_n _)))
      as [Hnodup _].
    exists fuel, start, goal, path. repeat (split; [done|]). split; [|done].
    intros fuel' Hle. unfold main.
    rewrite !decide_False by lia. rewrite Hgoal, Hrand, (Hrun fuel' Hle).
    by destruct path.
Qed.

(** ** Errors *)

Lemma for_range_None {S} (r : list nat) (body : nat → S → option S) (s : S) i :
  i ∈ r → (∀ s', body i s' = None) → for_range r body s = None.
Proof.
  intros Hi Hbody. revert s. induction r as [|j r IH]; intros s;
    [by apply elem_of_nil in Hi|].
  simpl. apply elem_of_cons in Hi as [->|Hi].
  - by rewrite Hbody.
  - destruct (body j s) as [s'|]; [|done]. simpl. by apply IH.
Qed.

Lemma heuristic_cell_None n (s g : ndarray) x y acc :
  cell s x y = None → heuristic_cell n s g x y acc = None.
Proof.
  intros Hc. destruct acc as [md mc]. unfold heuristic_cell.
  by rewrite !getitem_nat, Hc.
Qed.

(** X15. [heuristic] raises no [IndexError] on two grids of dimension
    [PUZZLE_DIM], and raises one whenever the state array has fewer than
    [PUZZLE_DIM] rows or fewer than [PUZZLE_DIM] columns. *)
Theorem heuristic_index_error n r c (s g : ndarray) :
  (shape n s → shape n g → is_Some (heuristic n s g))
  ∧ (rect r c s → (r < n)%nat ∨ (c < n)%nat → heuristic n s g = None).
Proof.
  split; [apply heuristic_is_Some|].
  intros [Hlen Hrows] Hsmall.
  assert (∃ x y, (x < n)%nat ∧ (y < n)%nat ∧ cell s x y = None) as (x & y & Hx & Hy & Hc).
  { destruct (decide (r < n)%nat) as [Hr|Hr].
    - exists r, 0%nat. split; [done|]. split; [lia|].
      unfold cell. by rewrite (proj2 (lookup_ge_None s r)) by lia.
    - exists 0%nat, c. destruct Hsmall as [?|Hc]; [done|]. split; [lia|]. split; [done|].
      unfold cell. destruct (s !! 0%nat) as [row|] eqn:Hrow; [|done]. simpl.
      apply lookup_ge_None. by rewrite (Forall_lookup_1 _ _ _ _ Hrows Hrow). }
  unfold heuristic.
  rewrite (for_range_None (seq 0 n) _ (0, 0) x); [done|by apply elem_of_seq; lia|].
  intros acc. apply (for_range_None (seq 0 n) _ acc y); [by apply elem_of_seq; lia|].
  intros acc'. by apply heuristic_cell_None.
Qed.

(** X16. Without a blank there is no search: when the start array holds no
    zero and is not the goal, [solve_puzzle] raises the [IndexError] of
    [available_actions] in its first iteration, instead of reporting that
    there is no solution. *)
Theorem solve_puzzle_no_blank n fuel (start goal : ndarray) :
  0 ∉ mjoin start → start ≠ goal → solve_puzzle n (S fuel) start goal = Some Raises.
Proof.
  intros Hzero Hne. unfold solve_puzzle, initial_state, heappush. simpl.
  unfold search_step, heappop. simpl.
  assert (array_equal_list start goal = false) as ->.
  { destruct start; [done|]. simpl. by rewrite bool_decide_eq_false_2. }
  rewrite bool_decide_eq_false_2 by apply not_elem_of_empty.
  unfold available_actions.
  by rewrite (proj2 (where_zero_first_None start) Hzero).
Qed.

Lemma solve_puzzle_no_blank_witness :
  let start := [[1;2];[3;4]] in
  let goal := [[1;2];[3;0]] in
  (0 ∉ mjoin start) ∧ start ≠ goal
  ∧ solve_puzzle 2 1 start goal = Some Raises.
Proof.
  intros start goal.
  assert (Hz : 0 ∉ mjoin start) by by_compute.
  assert (Hne : start ≠ goal) by by_compute.
  split; [exact Hz|]. split; [exact Hne|].
  exact (solve_puzzle_no_blank 2 0 start goal Hz Hne).
Defined.
